(** * armo-breadboard: the controller runtime and its binding layer

    A shallow embedding of
      - [source/SimpleController.js]  (the generic controller engine),
      - [Controllers.js]              (factory helpers and [controlledByProps]),
      - [ResponsiveDualModeController.js] (both versions of the layout
        controller),
    together with the properties of the transaction protocol. *)

From Stdlib Require Import ZArith Lia.
From stdpp Require Import base option list gmap finite strings sorting.

Local Open Scope Z_scope.

(** ** SimpleController.js *)

Module SimpleController.

(** A listener is the [{ change, transactionStart, transactionEnd }] record
    pushed by [$$subscribe]; every call creates a fresh record, identified
    here by a number. *)
Definition listener := nat.

(** The properties that a plain object [{}] inherits from
    [Object.prototype]; each is bound to a function or an object, so that
    reading it from [{}] gives a truthy value. *)
Definition Object_prototype_members : list string :=
  ["constructor"; "hasOwnProperty"; "isPrototypeOf"; "propertyIsEnumerable";
   "toLocaleString"; "toString"; "valueOf"; "__proto__";
   "__defineGetter__"; "__defineSetter__"; "__lookupGetter__";
   "__lookupSetter__"].

Section Engine.

(** [Env] is the type of inputs, [St] of states, [Out] of outputs, [Args] of
    action arguments; [Key] is the set of names declared in the class's
    static [actions] object. *)
Context {Env St Out Args Key : Type} `{Finite Key}.

(** A callback delivered to a listener. *)
Inductive notification :=
| Change (l : listener) (o : Out)
| TransactionStart (l : listener)
| TransactionEnd (l : listener).

(** The four [console.error] diagnostics of the engine. *)
Inductive diagnostic :=
| SetStateOnDestroyed
| ActionOnDestroyed
| ActionAlreadyRunning (k : Key)
| SetOnDestroyed.

(** The body of an action or of [envWillUpdate]: code that runs with [this]
    bound to the instance and may read [this.state] and [this.env], call
    [this.setState], call an action through [this.actions], and call [set]. *)
Inductive prog :=
| Done
| ReadState (k : St → prog)
| ReadEnv (k : Env → prog)
| SetState (s : St) (k : prog)
| CallAction (key : Key) (args : Args) (k : prog)
| CallSet (e : Env) (k : prog).

(** What a subclass of [SimpleController] provides: the static [actions],
    each under its property name, and the overridable methods.
    [doesEnvDiffer], [doesStateDiffer] and [output] read [this.env] and
    [this.state]; [envWillUpdate] is optional. *)
Record controller_class := {
  action_name : Key → string;
  actions : Key → Args → prog;
  doesEnvDiffer : Env → St → Env → bool;
  doesStateDiffer : Env → St → St → bool;
  output : Env → St → Out;
  envWillUpdate : option (Env → prog);
}.

(** The instance fields set up by the constructor, with the callbacks made
    ([notified]) and the diagnostics printed ([console]) so far. *)
Record controller := {
  env : Env;
  isDestroyed : bool;
  listeners : list listener;
  state : St;
  runningActions : gset Key;
  runningEnv : bool;
  transactionLevel : Z;
  notificationIsQueued : bool;
  notified : list notification;
  console : list diagnostic;
}.

Definition with_env (e : Env) (c : controller) : controller :=
  {| env := e; isDestroyed := isDestroyed c; listeners := listeners c;
     state := state c; runningActions := runningActions c;
     runningEnv := runningEnv c; transactionLevel := transactionLevel c;
     notificationIsQueued := notificationIsQueued c;
     notified := notified c; console := console c |}.

Definition with_isDestroyed (b : bool) (c : controller) : controller :=
  {| env := env c; isDestroyed := b; listeners := listeners c;
     state := state c; runningActions := runningActions c;
     runningEnv := runningEnv c; transactionLevel := transactionLevel c;
     notificationIsQueued := notificationIsQueued c;
     notified := notified c; console := console c |}.

Definition with_listeners (ls : list listener) (c : controller) : controller :=
  {| env := env c; isDestroyed := isDestroyed c; listeners := ls;
     state := state c; runningActions := runningActions c;
     runningEnv := runningEnv c; transactionLevel := transactionLevel c;
     notificationIsQueued := notificationIsQueued c;
     notified := notified c; console := console c |}.

Definition with_state (s : St) (c : controller) : controller :=
  {| env := env c; isDestroyed := isDestroyed c; listeners := listeners c;
     state := s; runningActions := runningActions c;
     runningEnv := runningEnv c; transactionLevel := transactionLevel c;
     notificationIsQueued := notificationIsQueued c;
     notified := notified c; console := console c |}.

Definition with_runningActions (r : gset Key) (c : controller) : controller :=
  {| env := env c; isDestroyed := isDestroyed c; listeners := listeners c;
     state := state c; runningActions := r;
     runningEnv := runningEnv c; transactionLevel := transactionLevel c;
     notificationIsQueued := notificationIsQueued c;
     notified := notified c; console := console c |}.

Definition with_runningEnv (b : bool) (c : controller) : controller :=
  {| env := env c; isDestroyed := isDestroyed c; listeners := listeners c;
     state := state c; runningActions := runningActions c;
     runningEnv := b; transactionLevel := transactionLevel c;
     notificationIsQueued := notificationIsQueued c;
     notified := notified c; console := console c |}.

Definition with_transactionLevel (n : Z) (c : controller) : controller :=
  {| env := env c; isDestroyed := isDestroyed c; listeners := listeners c;
     state := state c; runningActions := runningActions c;
     runningEnv := runningEnv c; transactionLevel := n;
     notificationIsQueued := notificationIsQueued c;
     notified := notified c; console := console c |}.

Definition with_notificationIsQueued (b : bool) (c : controller) : controller :=
  {| env := env c; isDestroyed := isDestroyed c; listeners := listeners c;
     state := state c; runningActions := runningActions c;
     runningEnv := runningEnv c; transactionLevel := transactionLevel c;
     notificationIsQueued := b;
     notified := notified c; console := console c |}.

(** Calling the listeners' callbacks, in subscription order. *)
Definition notify (ns : list notification) (c : controller) : controller :=
  {| env := env c; isDestroyed := isDestroyed c; listeners := listeners c;
     state := state c; runningActions := runningActions c;
     runningEnv := runningEnv c; transactionLevel := transactionLevel c;
     notificationIsQueued := notificationIsQueued c;
     notified := notified c ++ ns; console := console c |}.

(** [console.error(...)]. *)
Definition console_error (d : diagnostic) (c : controller) : controller :=
  {| env := env c; isDestroyed := isDestroyed c; listeners := listeners c;
     state := state c; runningActions := runningActions c;
     runningEnv := runningEnv c; transactionLevel := transactionLevel c;
     notificationIsQueued := notificationIsQueued c;
     notified := notified c; console := console c ++ [d] |}.

(** The constructor: [new Type(env)], with [initialState] copied in. *)
Definition new (e : Env) (initialState : St) : controller :=
  {| env := e; isDestroyed := false; listeners := [];
     state := initialState; runningActions := ∅;
     runningEnv := false; transactionLevel := 0;
     notificationIsQueued := false;
     notified := []; console := [] |}.

Variable cls : controller_class.

(** [$isRunning()] *)
Definition isRunning (c : controller) : bool :=
  runningEnv c || negb (bool_decide (runningActions c = ∅)).

(** [$doStateUpdate(state)]: the result is truthy exactly when the state was
    replaced. *)
Definition doStateUpdate (s : St) (c : controller) : controller * bool :=
  if doesStateDiffer cls (env c) (state c) s
  then (with_state s c, true)
  else (c, false).

(** [$doNotify()] *)
Definition doNotify (c : controller) : controller :=
  if negb (isRunning c) then
    let out := output cls (env c) (state c) in
    with_notificationIsQueued false
      (notify (map (λ l, Change l out) (listeners c)) c)
  else with_notificationIsQueued true c.

(** [$doIncreaseTransactionLevel()] *)
Definition doIncreaseTransactionLevel (c : controller) : controller :=
  let c1 := with_transactionLevel (transactionLevel c + 1) c in
  if transactionLevel c1 =? 1
  then notify (map TransactionStart (listeners c1)) c1
  else c1.

(** [$doDecreaseTransactionLevel()] *)
Definition doDecreaseTransactionLevel (c : controller) : controller :=
  let c1 := with_transactionLevel (transactionLevel c - 1) c in
  if transactionLevel c1 =? 0
  then notify (map TransactionEnd (listeners c1)) c1
  else c1.

(** [setState(state)] *)
Definition setState (s : St) (c : controller) : controller :=
  if isDestroyed c then console_error SetStateOnDestroyed c
  else
    let '(c1, changed) := doStateUpdate s c in
    if changed
    then doDecreaseTransactionLevel (doNotify (doIncreaseTransactionLevel c1))
    else c1.

(** Whether [{}[key]] is truthy: the name of the action is a member of
    [Object.prototype]. *)
Definition inherited (key : Key) : bool :=
  bool_decide (action_name cls key ∈ Object_prototype_members).

(** [this.$runningActions[key]] as a condition. [$runningActions] is a
    plain object in which [$doAction] binds the key of a running action to
    [true]: the lookup finds that binding, or else what [Object.prototype]
    has under that name. *)
Definition marked_as_running (key : Key) (c : controller) : bool :=
  bool_decide (key ∈ runningActions c) || inherited key.

(** [$doAction(key, fn, ...args)], where [exec] runs the body [fn]. *)
Definition doAction_with (exec : prog → controller → option controller)
    (key : Key) (args : Args) (c : controller) : option controller :=
  if isDestroyed c then Some (console_error ActionOnDestroyed c)
  else if marked_as_running key c
  then Some (console_error (ActionAlreadyRunning key) c)
  else
    let c1 := doIncreaseTransactionLevel c in
    let c2 := with_runningActions ({[key]} ∪ runningActions c1) c1 in
    c3 ← exec (actions cls key args) c2;
    let c4 := with_runningActions (runningActions c3 ∖ {[key]}) c3 in
    let c5 := if notificationIsQueued c4 then doNotify c4 else c4 in
    Some (doDecreaseTransactionLevel c5).

(** [$doEnvUpdate(env)], returning [[didEnvChange, didStateChange]]. *)
Definition doEnvUpdate_with (exec : prog → controller → option controller)
    (e : Env) (c : controller) : option (controller * (bool * bool)) :=
  if doesEnvDiffer cls (env c) (state c) e then
    match runningEnv c, envWillUpdate cls with
    | false, Some hook =>
        let oldState := state c in
        c1 ← exec (hook e) (with_runningEnv true c);
        let c2 := with_runningEnv false c1 in
        let didStateChange := doesStateDiffer cls (env c2) (state c2) oldState in
        Some (with_env e c2, (true, didStateChange))
    | _, _ => Some (with_env e c, (true, false))
    end
  else Some (c, (false, false)).

(** [$$set(env)] *)
Definition set_with (exec : prog → controller → option controller)
    (e : Env) (c : controller) : option controller :=
  if isDestroyed c then Some (console_error SetOnDestroyed c)
  else
    let c1 := doIncreaseTransactionLevel c in
    '(c2, (didEnvChange, _)) ← doEnvUpdate_with exec e c1;
    let c3 := if didEnvChange : bool then doNotify c2 else c2 in
    Some (doDecreaseTransactionLevel c3).

(** Running a body. Bodies call actions whose bodies call actions: [fuel]
    bounds the depth of that nesting, and [None] means it ran out. *)
Fixpoint run (fuel : nat) : prog → controller → option controller :=
  match fuel with
  | O => λ _ _, None
  | S fuel' =>
      fix go (p : prog) (c : controller) {struct p} : option controller :=
        match p with
        | Done => Some c
        | ReadState k => go (k (state c)) c
        | ReadEnv k => go (k (env c)) c
        | SetState s k => go k (setState s c)
        | CallAction key args k =>
            c' ← doAction_with (run fuel') key args c; go k c'
        | CallSet e k =>
            c' ← set_with (run fuel') e c; go k c'
        end
  end.

(** The bound function [this.$actions[key]]. *)
Definition doAction (fuel : nat) (key : Key) (args : Args) (c : controller)
    : option controller :=
  doAction_with (run fuel) key args c.

(** [$$set(env)] *)
Definition public_set (fuel : nat) (e : Env) (c : controller)
    : option controller :=
  set_with (run fuel) e c.

(** [$$get()] *)
Definition public_get (c : controller) : Out :=
  output cls (env c) (state c).

(** [$$subscribe(change, transactionStart, transactionEnd)] pushes the
    callbacks record [l]; the function it returns is [unsubscribe l]. *)
Definition public_subscribe (l : listener) (c : controller) : controller :=
  with_listeners (listeners c ++ [l]) c.

Fixpoint splice_first (l : listener) (ls : list listener) : list listener :=
  match ls with
  | [] => []
  | x :: ls' => if decide (x = l) then ls' else x :: splice_first l ls'
  end.

Definition unsubscribe (l : listener) (c : controller) : controller :=
  with_listeners (splice_first l (listeners c)) c.

(** [$$destroy()] *)
Definition public_destroy (c : controller) : controller :=
  with_isDestroyed true (with_listeners [] c).

(** The nesting that is still possible from [c]: an action nests only if
    it is not yet running, [envWillUpdate] only if it is not running. *)
Definition headroom (c : controller) : nat :=
  (card Key - size (runningActions c) + (if runningEnv c then 0 else 1))%nat.

Definition is_change (n : notification) : Prop :=
  match n with Change _ _ => True | _ => False end.

(** What a body running from [c] to [c'] leaves alone, and what it may
    deliver. *)
Record body_frame (c c' : controller) : Prop := {
  frame_isDestroyed : isDestroyed c' = isDestroyed c;
  frame_listeners : listeners c' = listeners c;
  frame_runningActions : runningActions c' = runningActions c;
  frame_runningEnv : runningEnv c' = runningEnv c;
  frame_transactionLevel : transactionLevel c' = transactionLevel c;
  frame_notified : ∃ ns, notified c' = notified c ++ ns ∧
    (1 ≤ transactionLevel c → Forall is_change ns) ∧
    (1 ≤ transactionLevel c → isRunning c = true →
       ns = [] ∧ (notificationIsQueued c = true →
                  notificationIsQueued c' = true));
}.

(** The instance as the body of action [key] finds it, and what
    [$doAction] does once the body has returned. *)
Definition enter_action (key : Key) (c : controller) : controller :=
  let c1 := doIncreaseTransactionLevel c in
  with_runningActions ({[key]} ∪ runningActions c1) c1.

Definition leave_action (key : Key) (c3 : controller) : controller :=
  let c4 := with_runningActions (runningActions c3 ∖ {[key]}) c3 in
  doDecreaseTransactionLevel
    (if notificationIsQueued c4 then doNotify c4 else c4).

(** With hooks that never see a difference a body changes nothing that a
    listener could observe. *)
Definition quiet (c c' : controller) : Prop :=
  body_frame c c' ∧
  (isDestroyed c = false → 1 ≤ transactionLevel c →
   notificationIsQueued c = false →
   notified c' = notified c ∧ notificationIsQueued c' = false).

(** A call made from outside the instance. *)
Inductive call :=
| ToSet (e : Env)
| ToAction (key : Key) (args : Args)
| ToSetState (s : St).

Definition perform (fuel : nat) (op : call) (c : controller)
    : option controller :=
  match op with
  | ToSet e => public_set fuel e c
  | ToAction key args => doAction fuel key args c
  | ToSetState s => Some (setState s c)
  end.

(** The guards under which a call reaches [$doIncreaseTransactionLevel]. *)
Definition opens_transaction (op : call) (c : controller) : bool :=
  negb (isDestroyed c) &&
  match op with
  | ToSet _ => true
  | ToAction key _ => negb (marked_as_running key c)
  | ToSetState s => doesStateDiffer cls (env c) (state c) s
  end.

(** An instance at rest: alive, and no call on the stack. *)
Record idle (c : controller) : Prop := {
  idle_isDestroyed : isDestroyed c = false;
  idle_runningActions : runningActions c = ∅;
  idle_runningEnv : runningEnv c = false;
  idle_transactionLevel : transactionLevel c = 0;
  idle_notificationIsQueued : notificationIsQueued c = false;
}.

(** The callbacks of one outermost transaction that delivers [changes]. *)
Definition bracket (changes : list notification) (c : controller)
    : list notification :=
  map TransactionStart (listeners c) ++ changes ++
  map TransactionEnd (listeners c).

(** What a call that reaches [$doIncreaseTransactionLevel] at level
    [transactionLevel c] delivers around the changes [mid]. *)
Definition delivered (mid : list notification) (c : controller)
    : list notification :=
  (if transactionLevel c + 1 =? 1
   then map TransactionStart (listeners c) else []) ++
  mid ++
  (if transactionLevel c + 1 - 1 =? 0
   then map TransactionEnd (listeners c) else []).

(** One [onChange] per listener, carrying [o]. *)
Definition one_change (o : Out) (c : controller) : list notification :=
  map (λ l, Change l o) (listeners c).

(** Bodies that call [setState] or [set] on every path, and bodies that
    only read. *)
Inductive always_sets : prog → Prop :=
| always_sets_SetState s k : always_sets (SetState s k)
| always_sets_CallSet e k : always_sets (CallSet e k)
| always_sets_ReadState k :
    (∀ s, always_sets (k s)) → always_sets (ReadState k)
| always_sets_ReadEnv k :
    (∀ e, always_sets (k e)) → always_sets (ReadEnv k)
| always_sets_CallAction key args k :
    always_sets k → always_sets (CallAction key args k).

(** [calls_setState e n s p s']: from state [s] and env [e], the body [p]
    reads and calls [setState] exactly [n] times, each time with a state
    that [doesStateDiffer] reports as different, the last one being [s']
    (or [s] itself when [n] is 0). *)
Inductive calls_setState (e : Env) : nat → St → prog → St → Prop :=
| calls_Done s : calls_setState e 0 s Done s
| calls_ReadState n s k s' :
    calls_setState e n s (k s) s' → calls_setState e n s (ReadState k) s'
| calls_ReadEnv n s k s' :
    calls_setState e n s (k e) s' → calls_setState e n s (ReadEnv k) s'
| calls_SetState n s s1 k s' :
    doesStateDiffer cls e s s1 = true →
    calls_setState e n s1 k s' →
    calls_setState e (S n) s (SetState s1 k) s'.

Inductive only_reads : prog → Prop :=
| only_reads_Done : only_reads Done
| only_reads_ReadState k :
    (∀ s, only_reads (k s)) → only_reads (ReadState k)
| only_reads_ReadEnv k :
    (∀ e, only_reads (k e)) → only_reads (ReadEnv k).

End Engine.

Arguments call Env St Args Key : clear implicits.
Arguments notification Out : clear implicits.
Arguments diagnostic Key : clear implicits.
Arguments prog Env St Args Key : clear implicits.
Arguments controller_class Env St Out Args Key : clear implicits.
Arguments controller Env St Out Key {_ _}.

End SimpleController.

(** ** Controllers.js: the factory helpers and [controlledByProps] *)

Module Controllers.

(** The errors the module raises, and the [TypeError]s of the runtime:
    when something that is not a function is called, when a property of
    [undefined] or [null] is read, and when a value cannot be converted
    (to an object, for [Object.keys]; to a string, for a template). *)
Inductive error :=
| NotAControllerClass (key : string)
| ReservedName
| ChangeWithoutTransaction
| ChangeWhileFlushing
| TypeError_not_a_function (what : string)
| TypeError_cannot_read (property : string)
| TypeError_cannot_convert (to : string).

(** The methods of the [console] object of a JavaScript runtime (the
    Console standard); any other property of [console] is [undefined]. *)
Definition console_methods : list string :=
  ["assert"; "clear"; "count"; "countReset"; "debug"; "dir"; "dirxml";
   "error"; "group"; "groupCollapsed"; "groupEnd"; "info"; "log"; "table";
   "time"; "timeEnd"; "timeLog"; "trace"; "warn"].

(** [console.method(message)]: prints, or throws when [console.method] is
    [undefined]. *)
Definition console_call (method message : string)
    : error + list (string * string) :=
  if decide (method ∈ console_methods)
  then inr [(method, message)]
  else inl (TypeError_not_a_function ("console." +:+ method)).

(** A value found where a controller class is expected: [undefined] or
    [null], or a value whose properties can be read. Of the latter it
    matters whether [value.prototype instanceof Controller], and whether
    the template [`${value}`] of the error message can convert it to a
    string (a symbol, or an object without [toString], cannot). *)
Inductive class_value :=
| Nullish
| AValue (extends_Controller printable : bool).

(** [value.prototype instanceof Controller], where it can be evaluated. *)
Definition is_Controller_class (v : class_value) : bool :=
  match v with
  | AValue true _ => true
  | _ => false
  end.

(** The argument of [instantiateDefaultControllers]: [undefined] or
    [null], a function, or any other value, given by its own enumerable
    string keys in the order of [Object.keys] and their values. *)
Inductive classes_argument :=
| NoArgument
| SingleClass (extends_Controller printable : bool)
| ClassMap (m : list (string * class_value)).

(** The decorator returned: the closure over [keys] and
    [controllerClasses], with what was printed on the way. *)
Record decorator := {
  keys : list string;
  controllerClasses : list (string * class_value);
  printed : list (string * string);
}.

(** One round of the [for (let key of keys)] check, and what it throws:
    [controllerClasses[key].prototype] is read first, and the message of
    the error is built from [controllerClasses[key]]. *)
Definition refusal (key : string) (v : class_value) : option error :=
  match v with
  | Nullish => Some (TypeError_cannot_read "prototype")
  | AValue true _ => None
  | AValue false true => Some (NotAControllerClass key)
  | AValue false false => Some (TypeError_cannot_convert "string")
  end.

Fixpoint check_classes (m : list (string * class_value)) : option error :=
  match m with
  | [] => None
  | (key, v) :: m' =>
      match refusal key v with
      | Some e => Some e
      | None => check_classes m'
      end
  end.

(** [controllerClasses] after the first statement: a function is wrapped
    as [{ controller: controllerClasses }]. [None] stands for [undefined]
    and [null], of which [Object.keys] throws. *)
Definition wrapped (arg : classes_argument)
    : option (list (string * class_value)) :=
  match arg with
  | NoArgument => None
  | SingleClass extends_Controller printable =>
      Some [("controller", AValue extends_Controller printable)]
  | ClassMap m => Some m
  end.

(** [instantiateDefaultControllers(controllerClasses)], up to and
    including the [return] of the decorator. *)
Definition instantiateDefaultControllers (arg : classes_argument)
    : error + decorator :=
  match wrapped arg with
  | None => inl (TypeError_cannot_convert "object")
  | Some controllerClasses =>
      let keys := map fst controllerClasses in
      match
        (if (length keys =? 0)%nat
         then console_call "warning"
                "instantiateDefaultControllers: called without any classes"
         else inr [])
      with
      | inl e => inl e
      | inr out =>
          match check_classes controllerClasses with
          | Some e => inl e
          | None =>
              inr {| keys := keys; controllerClasses := controllerClasses;
                     printed := out |}
          end
      end
  end.

(** *** The [ControlledByProps] component *)

(** The argument a controller passes to [onTransactionEnd]. *)
Inductive jsvalue :=
| JUndefined
| JFunction (id : nat).

Section ControlledByProps.

Context {Out : Type}.

(** What the component does to React and to the controllers:
    [this.setState({[key]: newState})], [this.setState({$flush: {}}, ...)]
    and [unlock()]. *)
Inductive effect :=
| SetStateOutput (key : string) (newState : Out)
| SetStateFlush
| Unlock (id : nat).

(** The instance fields of the component; [state] is [this.state] with the
    updates passed to [setState] merged in, [scheduled] counts the flush
    callbacks React still has to call. *)
Record host := {
  state : gmap string Out;
  transactionLevel : Z;
  flushLevel : Z;
  unlockQueue : list jsvalue;
  changesExist : bool;
  scheduled : nat;
  effects : list effect;
}.

(** The constructor. *)
Definition new : host :=
  {| state := ∅; transactionLevel := 0; flushLevel := 0; unlockQueue := [];
     changesExist := false; scheduled := 0%nat; effects := [] |}.

(** [handleChange(key, newState)] *)
Definition handleChange (key : string) (newState : Out) (h : host)
    : error + host :=
  if transactionLevel h =? 0 then inl ChangeWithoutTransaction
  else if negb (flushLevel h =? 0) then inl ChangeWhileFlushing
  else inr {| state := <[key := newState]> (state h);
              transactionLevel := transactionLevel h;
              flushLevel := flushLevel h;
              unlockQueue := unlockQueue h;
              changesExist := true;
              scheduled := scheduled h;
              effects := effects h ++ [SetStateOutput key newState] |}.

(** [handleTransactionStart()] *)
Definition handleTransactionStart (h : host) : host :=
  {| state := state h;
     transactionLevel := transactionLevel h + 1;
     flushLevel := if 0 <? flushLevel h then flushLevel h + 1
                   else flushLevel h;
     unlockQueue := unlockQueue h;
     changesExist := changesExist h;
     scheduled := scheduled h;
     effects := effects h |}.

(** [handleTransactionEnd(unlock)] *)
Definition handleTransactionEnd (unlock : jsvalue) (h : host) : host :=
  let flushLevel1 :=
    if 0 <? flushLevel h then flushLevel h - 1 else flushLevel h in
  let unlockQueue1 := unlockQueue h ++ [unlock] in
  let transactionLevel1 := transactionLevel h - 1 in
  if (transactionLevel1 =? 0) && changesExist h then
    {| state := state h;
       transactionLevel := transactionLevel1;
       flushLevel := flushLevel1 + 1;
       unlockQueue := unlockQueue1;
       changesExist := false;
       scheduled := S (scheduled h);
       effects := effects h ++ [SetStateFlush] |}
  else
    {| state := state h;
       transactionLevel := transactionLevel1;
       flushLevel := flushLevel1;
       unlockQueue := unlockQueue1;
       changesExist := changesExist h;
       scheduled := scheduled h;
       effects := effects h |}.

(** [this.unlockQueue.forEach(unlock => unlock())]: the calls made, and
    the error if an element is not a function. *)
Fixpoint forEach_unlock (queue : list jsvalue) : list effect * option error :=
  match queue with
  | [] => ([], None)
  | JFunction id :: queue' =>
      let '(done, err) := forEach_unlock queue' in (Unlock id :: done, err)
  | JUndefined :: _ => ([], Some (TypeError_not_a_function "unlock"))
  end.

(** The callback given to [setState] with the flush, called by React once
    the update is committed. *)
Definition flushed (h : host) : host * option error :=
  let '(done, err) := forEach_unlock (unlockQueue h) in
  ({| state := state h;
      transactionLevel := transactionLevel h;
      flushLevel := flushLevel h - 1;
      unlockQueue := match err with Some _ => unlockQueue h | None => [] end;
      changesExist := changesExist h;
      scheduled := pred (scheduled h);
      effects := effects h ++ done |}, err).

(** What a bound controller may call on the component. *)
Inductive callback :=
| OnTransactionStart
| OnChange (key : string) (newState : Out)
| OnTransactionEnd (unlock : jsvalue).

Definition deliver (cb : callback) (h : host) : error + host :=
  match cb with
  | OnTransactionStart => inr (handleTransactionStart h)
  | OnChange key newState => handleChange key newState h
  | OnTransactionEnd unlock => inr (handleTransactionEnd unlock h)
  end.

Fixpoint deliver_all (cbs : list callback) (h : host) : error + host :=
  match cbs with
  | [] => inr h
  | cb :: cbs' =>
      match deliver cb h with
      | inl e => inl e
      | inr h' => deliver_all cbs' h'
      end
  end.

(** The number of flushes passed to [setState] so far. *)
Definition flushes (h : host) : nat :=
  length (omap (λ e, match e with SetStateFlush => Some e | _ => None end)
               (effects h)).

(** The [unlock()] calls made so far, in order. *)
Definition unlocked (h : host) : list nat :=
  omap (λ e, match e with Unlock id => Some id | _ => None end) (effects h).

(** Controller A bound to [ka] and controller B bound to [kb] overlap:
    A starts, B starts, A ends, B ends, and each emits one change while
    its own transaction is open. These are all such interleavings, each
    split into what precedes B's end and B's end itself. *)
Definition overlapping (ka kb : string) (oa ob : Out) (ua : jsvalue)
    : list (list callback) :=
  let SA := OnTransactionStart in
  let SB := OnTransactionStart in
  let CA := OnChange ka oa in
  let CB := OnChange kb ob in
  let EA := OnTransactionEnd ua in
  [ [SA; CA; SB; CB; EA];
    [SA; SB; CA; CB; EA];
    [SA; SB; CB; CA; EA];
    [SA; CA; SB; EA; CB];
    [SA; SB; CA; EA; CB] ].

End ControlledByProps.

Arguments effect Out : clear implicits.
Arguments host Out : clear implicits.
Arguments callback Out : clear implicits.

End Controllers.

(** ** ResponsiveDualModeController.js *)

Module ResponsiveDualModeController.

(** JavaScript values as the controller meets them: a width is a number or
    [undefined], a mode is a string or [undefined]. *)
Definition number := option Z.
Definition mode := option string.

(** [a <= b]: false when either side is [undefined]. *)
Definition js_le (a b : number) : bool :=
  match a, b with
  | Some x, Some y => x <=? y
  | _, _ => false
  end.

(** [a !== undefined] *)
Definition is_defined (a : number) : bool :=
  match a with Some _ => true | None => false end.

(** The property key a value turns into in [modes[value] = true]. *)
Definition to_key (m : mode) : string := default "undefined" m.

(** [m === 'source'] *)
Definition is_source (m : mode) : bool := bool_decide (m = Some "source").

(** The object [modes], every key of which is bound to [true], built by
    both versions of the controller. *)
Definition calculate (width maxSinglePaneWidth : number)
    (primary defaultSecondary : mode) : gset string :=
  if is_defined width && js_le width maxSinglePaneWidth then
    {[to_key primary]} ∪ ∅
  else
    {[to_key (if is_source primary then defaultSecondary else primary)]} ∪
    ({["source"]} ∪ ∅).

(** *** The version on [PureController] *)

Record props := {
  props_width : number;
  props_maxSinglePaneWidth : number;
  props_defaultSecondary : mode;
}.


(** [output()]: the object [modes] just before the actions are assigned
    into it, and the keys of the object returned,
    [Object.assign(modes, this.actions)]. The object [this.actions] is set
    up by [PureController], which is not among the sources: its keys are
    the parameter [this_actions]. *)
Definition output_modes (p : props) (primary : mode) : gset string :=
  calculate (props_width p) (props_maxSinglePaneWidth p) primary
    (props_defaultSecondary p).

Definition output (this_actions : gset string) (p : props) (primary : mode)
    : gset string :=
  output_modes p primary ∪ this_actions.

(** *** The version on [SimpleController] *)

(** [array.join(',')] *)
Fixpoint join (sep : string) (l : list string) : string :=
  match l with
  | [] => ""
  | [x] => x
  | x :: l' => x +:+ sep +:+ join sep l'
  end.

(** [Object.keys(o).sort()] *)
Definition sorted_keys (o : gset string) : list string :=
  merge_sort String.le (elements o).

(** [modesAreEqual(oldModes, newModes)] *)
Definition modesAreEqual (oldModes newModes : gset string) : bool :=
  bool_decide (join "," (sorted_keys oldModes) =
               join "," (sorted_keys newModes)).

(** The fields [_recalc] reads from [this]; [modes] and [listeners] are
    [undefined] until something assigns them. *)
Record instance := {
  width : number;
  maxSinglePaneWidth : number;
  primary : mode;
  defaultSecondary : mode;
  modes : option (gset string);
  listeners : option (list nat);
}.

Definition with_modes (m : gset string) (this : instance) : instance :=
  {| width := width this; maxSinglePaneWidth := maxSinglePaneWidth this;
     primary := primary this; defaultSecondary := defaultSecondary this;
     modes := Some m; listeners := listeners this |}.

Inductive thrown :=
| TypeError_keys_of_undefined
| TypeError_not_iterable.

(** [_recalc()]: the instance afterwards, the calls [listener(this.modes)]
    made, and the exception if one was thrown. *)
Definition _recalc (this : instance)
    : instance * list (nat * gset string) * option thrown :=
  let oldModes := modes this in
  let newModes :=
    calculate (width this) (maxSinglePaneWidth this) (primary this)
      (defaultSecondary this) in
  match oldModes with
  | None => (this, [], Some TypeError_keys_of_undefined)
  | Some oldModes =>
      if negb (modesAreEqual newModes oldModes) then
        let this' := with_modes newModes this in
        match listeners this' with
        | None => (this', [], Some TypeError_not_iterable)
        | Some ls => (this', map (λ l, (l, newModes)) ls, None)
        end
      else (this, [], None)
  end.

(** The fields that [_recalc] reads, on an instance as
    [new ResponsiveDualModeController(env)] leaves it: the constructors
    assign [$env], [$isDestroyed], [$listeners], [$state],
    [$runningActions], [$runningEnv], [$transactionLevel] and [$actions],
    and [setState] replaces [$state]; none of them assigns [width],
    [maxSinglePaneWidth], [primary], [defaultSecondary], [modes] or
    [listeners]. *)
Definition constructed : instance :=
  {| width := None; maxSinglePaneWidth := None; primary := None;
     defaultSecondary := None; modes := None; listeners := None |}.



End ResponsiveDualModeController.

(** ** Two small controller classes *)

Module Examples.
Import SimpleController.

(** The action [true] calls [setState] three times, [false] does nothing. *)
Definition body (key : bool) (_ : unit) : prog nat nat unit bool :=
  if key then SetState 1%nat (SetState 2%nat (SetState 3%nat Done)) else Done.

(** The hooks of [SimpleController] itself: everything differs. *)
Definition differs : controller_class nat nat (nat * nat) unit bool :=
  {| action_name := λ key : bool, if key then "count" else "rest";
     actions := body;
     doesEnvDiffer := λ _ _ _, true;
     doesStateDiffer := λ _ _ _, true;
     output := λ e s, (e, s);
     envWillUpdate := None |}.

(** A subclass whose hooks never see a difference. *)
Definition same : controller_class nat nat (nat * nat) unit bool :=
  {| action_name := λ key : bool, if key then "count" else "rest";
     actions := body;
     doesEnvDiffer := λ _ _ _, false;
     doesStateDiffer := λ _ _ _, false;
     output := λ e s, (e, s);
     envWillUpdate := None |}.

(** The class of [differs] with its counting action declared under the
    name [toString]. *)
Definition shadowed : controller_class nat nat (nat * nat) unit bool :=
  {| action_name := λ key : bool, if key then "toString" else "rest";
     actions := body;
     doesEnvDiffer := λ _ _ _, true;
     doesStateDiffer := λ _ _ _, true;
     output := λ e s, (e, s);
     envWillUpdate := None |}.

(** A fresh instance with one subscriber. *)
Definition fresh : controller nat nat (nat * nat) bool :=
  public_subscribe 7%nat (new 0%nat 0%nat).

(** The same instance while the action [true] is on the stack. *)
Definition busy : controller nat nat (nat * nat) bool :=
  with_runningActions {[true]} (with_transactionLevel 1 fresh).

End Examples.

(** ** SimpleController.js: an instance in use *)

Module SimpleControllerUse.
Import SimpleController.

Section Use.

Context {Env St Out Args Key : Type} `{Finite Key}.
Variable cls : controller_class Env St Out Args Key.

(** The listener a callback is made to. *)
Definition recipient (n : notification Out) : listener :=
  match n with
  | Change l _ => l
  | TransactionStart l => l
  | TransactionEnd l => l
  end.

(** Callbacks made between [c] and [c'] go to listeners of [c], and the
    list of listeners is left alone. *)
Definition to_subscribers (c c' : controller Env St Out Key) : Prop :=
  listeners c' = listeners c ∧
  ∃ ns, notified c' = notified c ++ ns ∧
    Forall (λ n, recipient n ∈ listeners c) ns.

(** What the owner of a controller handle can do with it: the four public
    methods, the function returned by [subscribe], the bound actions, and
    [setState] from a callback of the instance's own. *)
Inductive use :=
| Call (op : call Env St Args Key)
| Subscribe (l : listener)
| Unsubscribe (l : listener)
| Destroy.

Definition apply_use (fuel : nat) (u : use)
    (c : controller Env St Out Key) : option (controller Env St Out Key) :=
  match u with
  | Call op => perform cls fuel op c
  | Subscribe l => Some (public_subscribe l c)
  | Unsubscribe l => Some (unsubscribe l c)
  | Destroy => Some (public_destroy c)
  end.

(** One use after the other, each returning before the next starts. *)
Fixpoint apply_uses (fuel : nat) (us : list use)
    (c : controller Env St Out Key) : option (controller Env St Out Key) :=
  match us with
  | [] => Some c
  | u :: us' => c' ← apply_use fuel u c; apply_uses fuel us' c'
  end.

(** No call is on the stack (the instance may have been destroyed). *)
Record settled (c : controller Env St Out Key) : Prop := {
  settled_runningActions : runningActions c = ∅;
  settled_runningEnv : runningEnv c = false;
  settled_transactionLevel : transactionLevel c = 0;
  settled_notificationIsQueued : notificationIsQueued c = false;
}.

End Use.

Arguments use Env St Args Key : clear implicits.

End SimpleControllerUse.

(** ** Controllers.js: a mounted [ControlledByProps] over time *)

Module ControlledByPropsUse.
Import Controllers.

Section Timeline.

Context {Out : Type}.

(** What happens to a mounted component: a bound controller calls one of
    the three handlers, or React commits a scheduled flush and calls the
    callback given with it. *)
Inductive event :=
| FromController (cb : callback Out)
| ReactCommits.

Definition occur (ev : event) (h : host Out) : error + host Out :=
  match ev with
  | FromController cb => deliver cb h
  | ReactCommits =>
      match flushed h with
      | (h', None) => inr h'
      | (_, Some e) => inl e
      end
  end.

Fixpoint occur_all (evs : list event) (h : host Out) : error + host Out :=
  match evs with
  | [] => inr h
  | ev :: evs' =>
      match occur ev h with
      | inl e => inl e
      | inr h' => occur_all evs' h'
      end
  end.

(** The functions among a list of [unlock] arguments. *)
Definition functions (q : list jsvalue) : list nat :=
  omap (λ v, match v with JFunction id => Some id | JUndefined => None end) q.

(** The [unlock] functions handed over by the transactions that ended. *)
Definition ended (evs : list event) : list nat :=
  functions
    (omap (λ ev, match ev with
                 | FromController (OnTransactionEnd unlock) => Some unlock
                 | _ => None
                 end) evs).

Definition is_OnChange (cb : callback Out) : bool :=
  match cb with OnChange _ _ => true | _ => false end.

(** [stays_flushing n cbs]: with [flushLevel] at [n], the starts and ends
    in [cbs] never bring it back to 0: no transaction ends that was not
    started after the flush. *)
Fixpoint stays_flushing (n : Z) (cbs : list (callback Out)) : bool :=
  match cbs with
  | [] => true
  | OnTransactionStart :: cbs' => stays_flushing (n + 1) cbs'
  | OnChange _ _ :: cbs' => stays_flushing n cbs'
  | OnTransactionEnd _ :: cbs' => (1 <? n) && stays_flushing (n - 1) cbs'
  end.

End Timeline.

Arguments event Out : clear implicits.

(** *** Subscribing to the controllers in the props *)

(** A controller handle is identified by a number. Of the props only the
    declared controller props matter here: [props !! key = Some c] when
    [props[key]] is the controller [c], and [None] when it is falsy. *)
Definition props := gmap string nat.

(** The calls the component makes: on a controller, on a function
    returned by [controller.subscribe], on the console and on itself.
    [CalledSetState] lists, per key, the controller whose [get()] is the
    new output, or [None] for [null]. *)
Inductive made_call :=
| CalledSet (c : nat) (input : props)
| CalledGet (c : nat)
| CalledSubscribe (c : nat) (key : string)
| CalledUnsubscriber (c : nat) (key : string)
| Warned (key otherKey : string)
| CalledSetState (outputs : list (string * option nat)).

(** What is shared by all components: [globalLinkedControllers],
    [ExecutionEnvironment.canUseDOM], and the calls made so far. *)
Record page := {
  linked : gmap nat string;
  canUseDOM : bool;
  calls : list made_call;
}.

(** The part of a component that [subscribe] and [unsubscribe] work on:
    [controllerPropNames], [this.props], and [this.unsubscribers], where
    [unsubscribers !! key = Some c] when the function stored under [key]
    was returned by [c.subscribe]. *)
Record subscriptions := {
  controllerPropNames : list string;
  this_props : props;
  unsubscribers : gmap string nat;
}.

Definition called (m : made_call) (pg : page) : page :=
  {| linked := linked pg; canUseDOM := canUseDOM pg;
     calls := calls pg ++ [m] |}.

Definition with_linked (l : gmap nat string) (pg : page) : page :=
  {| linked := l; canUseDOM := canUseDOM pg; calls := calls pg |}.

Definition with_unsubscribers (u : gmap string nat) (t : subscriptions)
    : subscriptions :=
  {| controllerPropNames := controllerPropNames t;
     this_props := this_props t; unsubscribers := u |}.

Definition with_props (p : props) (t : subscriptions) : subscriptions :=
  {| controllerPropNames := controllerPropNames t;
     this_props := p; unsubscribers := unsubscribers t |}.

(** The constructor. *)
Definition constructed (names : list string) (p : props) : subscriptions :=
  {| controllerPropNames := names; this_props := p; unsubscribers := ∅ |}.

(** [subscribe(key, controller, props)]; the value returned is
    [controller.get()]. *)
Definition subscribe (key : string) (c : nat) (input : props)
    (st : page * subscriptions) : page * subscriptions :=
  let '(pg, t) := st in
  let pg := called (CalledSet c input) pg in
  let '(pg, t) :=
    if canUseDOM pg then
      let pg :=
        match linked pg !! c with
        | Some otherKey =>
            if decide (otherKey = "") then pg
            else called (Warned key otherKey) pg
        | None => pg
        end in
      let pg := with_linked (<[c := key]> (linked pg)) pg in
      let pg := called (CalledSubscribe c key) pg in
      (pg, with_unsubscribers (<[key := c]> (unsubscribers t)) t)
    else (pg, t) in
  (called (CalledGet c) pg, t).

(** [unsubscribe(key, controller)] *)
Definition unsubscribe (key : string) (c : nat)
    (st : page * subscriptions) : page * subscriptions :=
  let '(pg, t) := st in
  let pg := with_linked (delete c (linked pg)) pg in
  match unsubscribers t !! key with
  | Some c' =>
      (called (CalledUnsubscriber c' key) pg,
       with_unsubscribers (delete key (unsubscribers t)) t)
  | None => (pg, t)
  end.

(** [outputs[key] = v] on an object shown as the insertion order of its
    keys. *)
Fixpoint set_output (key : string) (v : option nat)
    (outputs : list (string * option nat)) : list (string * option nat) :=
  match outputs with
  | [] => [(key, v)]
  | (k, v') :: outputs' =>
      if decide (k = key) then (k, v) :: outputs'
      else (k, v') :: set_output key v outputs'
  end.

(** The loop of [componentWillMount], with [outputs] so far. *)
Fixpoint mount_keys (keys : list string)
    (outputs : list (string * option nat))
    (st : page * subscriptions)
    : list (string * option nat) * (page * subscriptions) :=
  match keys with
  | [] => (outputs, st)
  | key :: keys' =>
      match this_props st.2 !! key with
      | Some c =>
          mount_keys keys' (set_output key (Some c) outputs)
            (subscribe key c (this_props st.2) st)
      | None => mount_keys keys' outputs st
      end
  end.

(** [componentWillMount()] *)
Definition componentWillMount (st : page * subscriptions)
    : page * subscriptions :=
  let '(outputs, (pg, t)) :=
    mount_keys (controllerPropNames st.2) [] st in
  (called (CalledSetState outputs) pg, t).

(** One round of the loop of [componentWillReceiveProps]. *)
Definition receive_key (nextProps : props) (key : string)
    (acc : list (string * option nat) * (page * subscriptions))
    : list (string * option nat) * (page * subscriptions) :=
  let '(newOutputs, st) := acc in
  let prevController := this_props st.2 !! key in
  let nextController := nextProps !! key in
  let '(newOutputs, st) :=
    match prevController with
    | Some prev =>
        if decide (nextController = Some prev) then (newOutputs, st)
        else (set_output key None newOutputs, unsubscribe key prev st)
    | None => (newOutputs, st)
    end in
  match nextController with
  | Some next =>
      if decide (prevController = Some next)
      then (newOutputs, (called (CalledSet next nextProps) st.1, st.2))
      else (set_output key (Some next) newOutputs,
            subscribe key next nextProps st)
  | None => (newOutputs, st)
  end.

(** [componentWillReceiveProps(nextProps)], after which React makes
    [nextProps] the props of the component. [haveNewOutputs] is true
    exactly when something was put into [newOutputs]. *)
Definition componentWillReceiveProps (nextProps : props)
    (st : page * subscriptions) : page * subscriptions :=
  let '(newOutputs, (pg, t)) :=
    foldl (λ acc key, receive_key nextProps key acc) ([], st)
          (controllerPropNames st.2) in
  let pg :=
    match newOutputs with
    | [] => pg
    | _ => called (CalledSetState newOutputs) pg
    end in
  (pg, with_props nextProps t).

(** [componentWillUnmount()] *)
Definition componentWillUnmount (st : page * subscriptions)
    : page * subscriptions :=
  foldl (λ st key,
           match this_props st.2 !! key with
           | Some c => unsubscribe key c st
           | None => st
           end) st (controllerPropNames st.2).

(** A component that is mounted and then receives new props, one set
    after the other. *)
Definition mounted_through (updates : list props)
    (st : page * subscriptions) : page * subscriptions :=
  foldl (λ st nextProps, componentWillReceiveProps nextProps st)
        (componentWillMount st) updates.

(** The declared controller props among [p]. *)
Definition declared (names : list string) (p : props) : gmap string nat :=
  filter (λ kv, kv.1 ∈ names) p.

(** A page in the browser on which nothing has happened yet. *)
Definition browser : page :=
  {| linked := ∅; canUseDOM := true; calls := [] |}.

(** A component that has passed a flush to [setState] and waits for React
    to commit it. *)
Definition waiting : host nat :=
  {| state := {["modes" := 1%nat]}; transactionLevel := 0; flushLevel := 1;
     unlockQueue := [JFunction 10]; changesExist := false;
     scheduled := 1%nat;
     effects := [SetStateOutput "modes" 1%nat; SetStateFlush] |}.

End ControlledByPropsUse.

(** ** Controllers.js: the [InstantiateDefaultControllers] component *)

Module InstantiateDefaultControllersUse.

Section Lifecycle.
Context {V : Type}.

(** The [keys] the decorator closes over. *)
Variable keys : list string.

(** A JavaScript object from prop names to controllers, as the insertion
    order of its own keys shows it; controllers are named by numbers, and
    no key is an array index. *)
Definition object := list (string * nat).

(** [o[key]] *)
Fixpoint get (key : string) (o : object) : option nat :=
  match o with
  | [] => None
  | (k, c) :: o' => if decide (k = key) then Some c else get key o'
  end.

(** [o[key] = c] *)
Fixpoint put (key : string) (c : nat) (o : object) : object :=
  match o with
  | [] => [(key, c)]
  | (k, c') :: o' =>
      if decide (k = key) then (k, c) :: o' else (k, c') :: put key c o'
  end.

(** [delete o[key]] *)
Definition remove (key : string) (o : object) : object :=
  filter (λ kv, kv.1 ≠ key) o.

(** [Object.keys(o)] *)
Definition Object_keys (o : object) : list string := map fst o.

(** [Object.assign(target, source)] *)
Definition Object_assign (target source : object) : object :=
  foldl (λ o kv, put kv.1 kv.2 o) target source.

(** Props: a prop that is not [undefined] is a value of the parent or a
    controller made here. *)
Definition props := gmap string (V + nat).

(** [{ ...p, ...o }] *)
Definition spread (p : props) (o : object) : props :=
  foldl (λ m kv, <[kv.1 := inr kv.2]> m) p o.

Inductive lifecycle_event :=
| Instantiated (key : string) (input : props) (c : nat)
| Destroyed (c : nat).

(** What the component has done to controllers so far: how many it has
    made, and the calls in order. *)
Record world := {
  instantiated : nat;
  history : list lifecycle_event;
}.

Definition nothing_yet : world := {| instantiated := 0; history := [] |}.

(** [instantiateController(controllerClasses[key], props)], for a class
    whose constructor and [$initialize] return: a new controller, named by
    the number of controllers made before it. *)
Definition instantiateController (key : string) (input : props) (w : world)
    : nat * world :=
  (instantiated w,
   {| instantiated := S (instantiated w);
      history := history w ++ [Instantiated key input (instantiated w)] |}).

(** [controller.destroy()] *)
Definition destroy (c : nat) (w : world) : world :=
  {| instantiated := instantiated w;
     history := history w ++ [Destroyed c] |}.

(** The loop of [createMissingControllers(props)] over the keys left, with
    the object [created] so far. *)
Fixpoint createMissingControllers_from (ks : list string) (p : props)
    (created : object) (w : world) : object * world :=
  match ks with
  | [] => (created, w)
  | key :: ks' =>
      match p !! key with
      | None =>
          let '(c, w') := instantiateController key p w in
          createMissingControllers_from ks' p (put key c created) w'
      | Some _ => createMissingControllers_from ks' p created w
      end
  end.

Definition createMissingControllers (p : props) (w : world)
    : object * world :=
  createMissingControllers_from keys p [] w.

(** The component: [this.state.defaults], beside the world. *)
Definition component := (object * world)%type.

(** [constructor(props)] *)
Definition constructor (p : props) : component :=
  createMissingControllers p nothing_yet.

(** The loop [for (let key of Object.keys(this.state.defaults))] of
    [componentWillReceiveProps] and of [componentWillUnmount], over the
    keys left; [test key] is the condition under which the controller
    is destroyed and its key deleted. Calling [destroy] on [undefined]
    throws a [TypeError]: [None]. *)
Fixpoint destroy_defaults (test : string → bool) (ks : list string)
    (t : component) : option component :=
  match ks with
  | [] => Some t
  | key :: ks' =>
      if test key then
        match get key t.1 with
        | Some c => destroy_defaults test ks' (remove key t.1, destroy c t.2)
        | None => None
        end
      else destroy_defaults test ks' t
  end.

(** [componentWillReceiveProps(nextProps)] *)
Definition componentWillReceiveProps (nextProps : props) (t : component)
    : option component :=
  match
    destroy_defaults (λ key, bool_decide (is_Some (nextProps !! key)))
      (Object_keys t.1) t
  with
  | None => None
  | Some t1 =>
      let merged := spread nextProps t1.1 in
      let '(created, w2) := createMissingControllers merged t1.2 in
      Some (Object_assign t1.1 created, w2)
  end.

(** [componentWillUnmount()] *)
Definition componentWillUnmount (t : component) : option component :=
  destroy_defaults (λ _, true) (Object_keys t.1) t.

(** The props [render()] passes to the wrapped component. *)
Definition render (this_props : props) (t : component) : props :=
  spread this_props t.1.

(** The component after its construction and a series of new props. *)
Definition updated (p0 : props) (updates : list props) : option component :=
  foldl (λ ot nextProps, ot ≫= componentWillReceiveProps nextProps)
        (Some (constructor p0)) updates.

(** The controllers made and the controllers destroyed, in order. *)
Definition made (w : world) : list nat :=
  omap (λ e, match e with Instantiated _ _ c => Some c | _ => None end)
       (history w).

Definition destroyed (w : world) : list nat :=
  omap (λ e, match e with Destroyed c => Some c | _ => None end)
       (history w).

(** The declared keys that props leave undefined. *)
Definition missing (p : props) (ks : list string) : list string :=
  filter (λ key, p !! key = None) ks.

(** The state of a mounted component whose current props are [p]: it
    holds a controller for the declared keys that [p] leaves undefined and
    for no other key, and the controllers made so far are the ones it
    holds and the ones destroyed. *)
Record tidy (p : props) (t : component) : Prop := {
  tidy_keys : NoDup (Object_keys t.1);
  tidy_defaults :
    ∀ key, is_Some (get key t.1) ↔ key ∈ keys ∧ p !! key = None;
  tidy_made : made t.2 = seq 0 (instantiated t.2);
  tidy_alive : destroyed t.2 ++ map snd t.1 ≡ₚ seq 0 (instantiated t.2);
}.

End Lifecycle.

Arguments lifecycle_event V : clear implicits.
Arguments world V : clear implicits.
Arguments component V : clear implicits.
Arguments props V : clear implicits.

End InstantiateDefaultControllersUse.

(** ** ResponsiveDualModeController.js: the methods around [_recalc] *)

Module ResponsiveDualModeControllerUse.
Import ResponsiveDualModeController.

Definition with_primary (m : mode) (this : instance) : instance :=
  {| width := width this; maxSinglePaneWidth := maxSinglePaneWidth this;
     primary := m; defaultSecondary := defaultSecondary this;
     modes := modes this; listeners := listeners this |}.

Definition with_width (w : number) (this : instance) : instance :=
  {| width := w; maxSinglePaneWidth := maxSinglePaneWidth this;
     primary := primary this; defaultSecondary := defaultSecondary this;
     modes := modes this; listeners := listeners this |}.

Definition with_maxSinglePaneWidth (w : number) (this : instance)
    : instance :=
  {| width := width this; maxSinglePaneWidth := w;
     primary := primary this; defaultSecondary := defaultSecondary this;
     modes := modes this; listeners := listeners this |}.

(** [envWillUpdate(newEnv)], where [env_max] is
    [this.env.maxSinglePaneWidth]. *)
Definition envWillUpdate (newEnv_max env_max : number) (this : instance)
    : instance * list (nat * gset string) * option thrown :=
  if bool_decide (newEnv_max ≠ env_max)
  then _recalc (with_maxSinglePaneWidth newEnv_max this)
  else (this, [], None).

(** [setMode(newMode)] *)
Definition setMode (newMode : mode) (this : instance)
    : instance * list (nat * gset string) * option thrown :=
  _recalc (with_primary newMode this).

(** [setDimensions({ width })] *)
Definition setDimensions (w : number) (this : instance)
    : instance * list (nat * gset string) * option thrown :=
  _recalc (with_width w this).

Inductive method :=
| SetMode (newMode : mode)
| SetDimensions (w : number)
| EnvWillUpdate (newEnv_max env_max : number).

Definition invoke (m : method) (this : instance)
    : instance * list (nat * gset string) * option thrown :=
  match m with
  | SetMode newMode => setMode newMode this
  | SetDimensions w => setDimensions w this
  | EnvWillUpdate newEnv_max env_max => envWillUpdate newEnv_max env_max this
  end.

(** One method after the other, until one throws. *)
Fixpoint invoke_all (ms : list method) (this : instance)
    : instance * list (nat * gset string) * option thrown :=
  match ms with
  | [] => (this, [], None)
  | m :: ms' =>
      match invoke m this with
      | (this', calls, Some e) => (this', calls, Some e)
      | (this', calls, None) =>
          let '(this'', calls', e) := invoke_all ms' this' in
          (this'', calls ++ calls', e)
      end
  end.

(** A call that returns before it reaches [_recalc]. *)
Definition skips_recalc (m : method) : bool :=
  match m with
  | EnvWillUpdate newEnv_max env_max => bool_decide (newEnv_max = env_max)
  | _ => false
  end.

(** Whether a string contains a comma. *)
Fixpoint has_comma (s : string) : bool :=
  match s with
  | EmptyString => false
  | String a s' => bool_decide (String a "" = ",") || has_comma s'
  end.

End ResponsiveDualModeControllerUse.

(** * Properties *)

Module SimpleControllerFacts.
Import SimpleController.

Section EngineFacts.

Context {Env St Out Args Key : Type} `{Finite Key}.
Variable cls : controller_class Env St Out Args Key.

Local Abbreviation controller := (controller Env St Out Key).
Local Abbreviation prog := (prog Env St Args Key).

(** ** Unfolding [run] *)

Lemma run_Done fuel (c : controller) : run cls (S fuel) Done c = Some c.
Proof. reflexivity. Qed.

Lemma run_ReadState fuel k (c : controller) :
  run cls (S fuel) (ReadState k) c = run cls (S fuel) (k (state c)) c.
Proof. reflexivity. Qed.

Lemma run_ReadEnv fuel k (c : controller) :
  run cls (S fuel) (ReadEnv k) c = run cls (S fuel) (k (env c)) c.
Proof. reflexivity. Qed.

Lemma run_SetState fuel s k (c : controller) :
  run cls (S fuel) (SetState s k) c = run cls (S fuel) k (setState cls s c).
Proof. reflexivity. Qed.

Lemma run_CallAction fuel key args k (c : controller) :
  run cls (S fuel) (CallAction key args k) c =
  doAction_with cls (run cls fuel) key args c ≫= run cls (S fuel) k.
Proof. reflexivity. Qed.

Lemma run_CallSet fuel e k (c : controller) :
  run cls (S fuel) (CallSet e k) c =
  set_with cls (run cls fuel) e c ≫= run cls (S fuel) k.
Proof. reflexivity. Qed.

(** A relation that every step of a body respects is respected by [run]. *)
Lemma run_preserves (R : controller → controller → Prop) :
  (∀ c, R c c) →
  (∀ c1 c2 c3, R c1 c2 → R c2 c3 → R c1 c3) →
  (∀ s c, R c (setState cls s c)) →
  (∀ exec key args c c',
     (∀ p d d', exec p d = Some d' → R d d') →
     doAction_with cls exec key args c = Some c' → R c c') →
  (∀ exec e c c',
     (∀ p d d', exec p d = Some d' → R d d') →
     set_with cls exec e c = Some c' → R c c') →
  ∀ fuel p c c', run cls fuel p c = Some c' → R c c'.
Proof.
  intros Hrefl Htrans HsetState HdoAction Hset.
  induction fuel as [|fuel IHfuel]; [discriminate|].
  induction p as [|k IH|k IH|s k IH|key args k IH|e k IH]; intros c c'.
  - rewrite run_Done. intros [= <-]. apply Hrefl.
  - rewrite run_ReadState. apply IH.
  - rewrite run_ReadEnv. apply IH.
  - rewrite run_SetState. intros Hrun.
    eapply Htrans; [apply HsetState | eapply IH, Hrun].
  - rewrite run_CallAction.
    destruct (doAction_with cls (run cls fuel) key args c) as [c1|] eqn:Hd;
      [|discriminate].
    simpl. intros Hrun.
    eapply Htrans; [eapply HdoAction, Hd; exact IHfuel | eapply IH, Hrun].
  - rewrite run_CallSet.
    destruct (set_with cls (run cls fuel) e c) as [c1|] eqn:Hd;
      [|discriminate].
    simpl. intros Hrun.
    eapply Htrans; [eapply Hset, Hd; exact IHfuel | eapply IH, Hrun].
Qed.

(** ** The lookup [this.$runningActions[key]] *)

Lemma not_marked_as_running key (c : controller) :
  marked_as_running cls key c = false ↔
  (key ∉ runningActions c) ∧ inherited cls key = false.
Proof.
  unfold marked_as_running. rewrite orb_false_iff, bool_decide_eq_false.
  done.
Qed.

Lemma running_marked_as_running key (c : controller) :
  key ∈ runningActions c → marked_as_running cls key c = true.
Proof.
  intros Hin. unfold marked_as_running. by rewrite bool_decide_eq_true_2.
Qed.

Lemma inherited_marked_as_running key (c : controller) :
  inherited cls key = true → marked_as_running cls key c = true.
Proof. intros Hin. unfold marked_as_running. by rewrite Hin, orb_true_r. Qed.

(** ** The frame of a body *)

Lemma Forall_is_change_map (ls : list listener) (o : Out) :
  Forall is_change (map (λ l, Change l o) ls).
Proof. induction ls; constructor; simpl; auto. Qed.

Lemma isRunning_frame (c c' : controller) :
  runningActions c' = runningActions c → runningEnv c' = runningEnv c →
  isRunning c' = isRunning c.
Proof. unfold isRunning. by intros -> ->. Qed.

Lemma body_frame_refl (c : controller) : body_frame c c.
Proof.
  split; auto. exists []. rewrite app_nil_r. repeat split; auto.
Qed.

Lemma body_frame_trans (c1 c2 c3 : controller) :
  body_frame c1 c2 → body_frame c2 c3 → body_frame c1 c3.
Proof.
  intros [Hd1 Hl1 Ha1 He1 Ht1 (ns1 & Hn1 & Hc1 & Hr1)]
         [Hd2 Hl2 Ha2 He2 Ht2 (ns2 & Hn2 & Hc2 & Hr2)].
  split; try congruence.
  exists (ns1 ++ ns2). rewrite Hn2, Hn1, app_assoc.
  rewrite Ht1, (isRunning_frame c1 c2 Ha1 He1) in *.
  split; [done|]. split.
  - intros Hlvl. apply Forall_app; auto.
  - intros Hlvl Hrun.
    destruct (Hr1 Hlvl Hrun) as [-> Hq1], (Hr2 Hlvl Hrun) as [-> Hq2]. auto.
Qed.

Lemma controller_ext (c1 c2 : controller) :
  env c1 = env c2 → isDestroyed c1 = isDestroyed c2 →
  listeners c1 = listeners c2 → state c1 = state c2 →
  runningActions c1 = runningActions c2 → runningEnv c1 = runningEnv c2 →
  transactionLevel c1 = transactionLevel c2 →
  notificationIsQueued c1 = notificationIsQueued c2 →
  notified c1 = notified c2 → console c1 = console c2 → c1 = c2.
Proof. destruct c1, c2. simpl. by intros; subst. Qed.

(** The three bookkeeping steps, as plain field updates. *)
Lemma doIncreaseTransactionLevel_eq (c : controller) :
  doIncreaseTransactionLevel c =
  notify (if transactionLevel c + 1 =? 1
          then map TransactionStart (listeners c) else [])
         (with_transactionLevel (transactionLevel c + 1) c).
Proof.
  unfold doIncreaseTransactionLevel. simpl.
  destruct (transactionLevel c + 1 =? 1); [done|].
  unfold notify. simpl. by rewrite app_nil_r.
Qed.

Lemma doDecreaseTransactionLevel_eq (c : controller) :
  doDecreaseTransactionLevel c =
  notify (if transactionLevel c - 1 =? 0
          then map TransactionEnd (listeners c) else [])
         (with_transactionLevel (transactionLevel c - 1) c).
Proof.
  unfold doDecreaseTransactionLevel. simpl.
  destruct (transactionLevel c - 1 =? 0); [done|].
  unfold notify. simpl. by rewrite app_nil_r.
Qed.

Lemma doNotify_eq (c : controller) :
  doNotify cls c =
  with_notificationIsQueued (isRunning c)
    (notify (if isRunning c then []
             else map (λ l, Change l (output cls (env c) (state c)))
                      (listeners c)) c).
Proof.
  unfold doNotify. destruct (isRunning c); simpl; [|done].
  unfold notify, with_notificationIsQueued. simpl. by rewrite app_nil_r.
Qed.

Ltac fields :=
  cbn [env isDestroyed listeners state runningActions runningEnv
       transactionLevel notificationIsQueued notified console
       with_env with_isDestroyed with_listeners with_state
       with_runningActions with_runningEnv with_transactionLevel
       with_notificationIsQueued notify console_error].

Ltac fields_in H :=
  cbn [env isDestroyed listeners state runningActions runningEnv
       transactionLevel notificationIsQueued notified console
       with_env with_isDestroyed with_listeners with_state
       with_runningActions with_runningEnv with_transactionLevel
       with_notificationIsQueued notify console_error] in H.

Lemma isRunning_notify ns (c : controller) :
  isRunning (notify ns c) = isRunning c.
Proof. reflexivity. Qed.

Lemma isRunning_console_error d (c : controller) :
  isRunning (console_error d c) = isRunning c.
Proof. reflexivity. Qed.

Lemma isRunning_with_transactionLevel n (c : controller) :
  isRunning (with_transactionLevel n c) = isRunning c.
Proof. reflexivity. Qed.

Lemma isRunning_with_state s (c : controller) :
  isRunning (with_state s c) = isRunning c.
Proof. reflexivity. Qed.

Lemma isRunning_with_env e (c : controller) :
  isRunning (with_env e c) = isRunning c.
Proof. reflexivity. Qed.

Lemma isRunning_with_notificationIsQueued b (c : controller) :
  isRunning (with_notificationIsQueued b c) = isRunning c.
Proof. reflexivity. Qed.

Lemma isRunning_with_runningEnv_true (c : controller) :
  isRunning (with_runningEnv true c) = true.
Proof. reflexivity. Qed.

Lemma isRunning_marked (key : Key) (X : gset Key) (c : controller) :
  isRunning (with_runningActions ({[key]} ∪ X) c) = true.
Proof.
  unfold isRunning. fields.
  rewrite bool_decide_eq_false_2; [apply orb_true_r | set_solver].
Qed.

Lemma unmark_marked (key : Key) (X : gset Key) :
  key ∉ X → ({[key]} ∪ X) ∖ {[key]} = X.
Proof. set_solver. Qed.

Ltac running :=
  repeat first
    [ rewrite isRunning_notify | rewrite isRunning_console_error
    | rewrite isRunning_with_transactionLevel | rewrite isRunning_with_state
    | rewrite isRunning_with_env | rewrite isRunning_with_notificationIsQueued
    | rewrite isRunning_with_runningEnv_true | rewrite isRunning_marked ].

Ltac running_in H :=
  repeat first
    [ rewrite isRunning_notify in H | rewrite isRunning_console_error in H
    | rewrite isRunning_with_transactionLevel in H
    | rewrite isRunning_with_state in H
    | rewrite isRunning_with_env in H
    | rewrite isRunning_with_notificationIsQueued in H
    | rewrite isRunning_with_runningEnv_true in H
    | rewrite isRunning_marked in H ].

Ltac steps :=
  rewrite ?doDecreaseTransactionLevel_eq, ?doNotify_eq,
    ?doIncreaseTransactionLevel_eq; fields; running.

Ltac steps_in H :=
  rewrite ?doDecreaseTransactionLevel_eq, ?doNotify_eq,
    ?doIncreaseTransactionLevel_eq in H; fields_in H; running_in H.

Ltac level_tests :=
  repeat match goal with
  | |- context [?a =? ?b] => destruct (Z.eqb_spec a b); try lia
  | H : context [?a =? ?b] |- _ => destruct (Z.eqb_spec a b); try lia
  end.

Lemma setState_frame s (c : controller) : body_frame c (setState cls s c).
Proof.
  unfold setState, doStateUpdate.
  destruct (isDestroyed c) eqn:Hdes.
  { split; auto. exists []. simpl. rewrite app_nil_r. repeat split; auto. }
  destruct (doesStateDiffer cls (env c) (state c) s);
    [|apply body_frame_refl].
  steps.
  split; fields; auto; try lia.
  eexists. split; [by rewrite <- !app_assoc|].
  split.
  - intros Hlvl. level_tests. rewrite app_nil_l, app_nil_r.
    destruct (isRunning c); [constructor | apply Forall_is_change_map].
  - intros Hlvl ->. level_tests. done.
Qed.

Lemma rejected_frame d (c : controller) : body_frame c (console_error d c).
Proof.
  split; auto. exists []. simpl. rewrite app_nil_r. repeat split; auto.
Qed.

Lemma doAction_with_frame exec key args (c c' : controller) :
  (∀ p d d', exec p d = Some d' → body_frame d d') →
  doAction_with cls exec key args c = Some c' → body_frame c c'.
Proof.
  intros Hexec. unfold doAction_with.
  destruct (isDestroyed c) eqn:Hdes.
  { intros [= <-]. apply rejected_frame. }
  destruct (marked_as_running cls key c) eqn:Hmark.
  { intros [= <-]. apply rejected_frame. }
  apply not_marked_as_running in Hmark as [Hin _].
  destruct (exec _ _) as [c3|] eqn:Hbody; [|discriminate].
  simpl. intros [= <-].
  apply Hexec in Hbody.
  destruct Hbody as [Hd Hl Ha He Ht (ns & Hn & Hc & Hr)].
  steps_in Hd; steps_in Hl; steps_in Ha; steps_in He; steps_in Ht;
    steps_in Hn; steps_in Hc; steps_in Hr.
  assert (Hrun4 : isRunning
    (with_runningActions (runningActions c3 ∖ {[key]}) c3) = isRunning c).
  { apply isRunning_frame; fields; [|done].
    rewrite Ha. by apply unmark_marked. }
  assert (Hback : runningActions c3 ∖ {[key]} = runningActions c).
  { rewrite Ha. by apply unmark_marked. }
  fields.
  destruct (notificationIsQueued c3) eqn:Hq3.
  - steps. rewrite Hrun4.
    split; fields; try congruence; try lia.
    rewrite Hn, Hl, Ht.
    eexists. split; [by rewrite <- !app_assoc|].
    split.
    + intros Hlvl. level_tests. rewrite app_nil_l, app_nil_r.
      apply Forall_app. split; [apply Hc; lia|].
      destruct (isRunning c); [constructor | apply Forall_is_change_map].
    + intros Hlvl Hrun. rewrite Hrun. level_tests.
      destruct Hr as [-> _]; [lia | done | done].
  - steps.
    split; fields; try congruence; try lia.
    rewrite Hn, Hl, Ht.
    eexists. split; [by rewrite <- !app_assoc|].
    split.
    + intros Hlvl. level_tests. rewrite app_nil_l, app_nil_r.
      apply Hc; lia.
    + intros Hlvl Hrun. level_tests.
      destruct Hr as [-> Hq]; [lia | done |]. split; [done|].
      intros Hqc. by apply Hq in Hqc.
Qed.

Lemma set_with_frame exec e (c c' : controller) :
  (∀ p d d', exec p d = Some d' → body_frame d d') →
  set_with cls exec e c = Some c' → body_frame c c'.
Proof.
  intros Hexec. unfold set_with, doEnvUpdate_with.
  destruct (isDestroyed c) eqn:Hdes.
  { intros [= <-]. apply rejected_frame. }
  steps.
  destruct (doesEnvDiffer cls (env c) (state c) e).
  2:{ simpl. intros [= <-]. steps.
      split; fields; auto; try lia.
      eexists. split; [by rewrite <- !app_assoc|].
      split; intros Hlvl; [|intros Hrun]; level_tests; done. }
  destruct (runningEnv c) eqn:Henv, (envWillUpdate cls) as [hook|].
  1,2,4: simpl; intros [= <-]; steps;
    (split; fields; auto; try lia);
    (eexists; split; [by rewrite <- !app_assoc|]);
    (split; intros Hlvl; [|intros Hrun]; level_tests;
      [ rewrite app_nil_l, app_nil_r;
        destruct (isRunning c); [constructor | apply Forall_is_change_map]
      | rewrite Hrun; done ]).
  - destruct (exec _ _) as [c1|] eqn:Hbody; [|discriminate].
    simpl. intros [= <-].
    apply Hexec in Hbody.
    destruct Hbody as [Hd Hl Ha He Ht (ns & Hn & Hc & Hr)].
    steps_in Hd; steps_in Hl; steps_in Ha; steps_in He; steps_in Ht;
      steps_in Hn; steps_in Hc; steps_in Hr.
    steps.
    assert (Hrun1 : isRunning (with_runningEnv false c1) = isRunning c).
    { apply isRunning_frame; fields; congruence. }
    rewrite Hrun1.
    split; fields; try congruence; try lia.
    rewrite Hn, Hl, Ht.
    eexists. split; [by rewrite <- !app_assoc|].
    split.
    + intros Hlvl. level_tests. rewrite app_nil_l, app_nil_r.
      apply Forall_app. split; [apply Hc; lia|].
      destruct (isRunning c); [constructor | apply Forall_is_change_map].
    + intros Hlvl Hrun. rewrite Hrun. level_tests.
      destruct Hr as [-> _]; [lia | done | done].
Qed.

(** Whatever an action body or [envWillUpdate] does, it leaves the
    bookkeeping as it found it. *)
Lemma run_frame fuel p (c c' : controller) :
  run cls fuel p c = Some c' → body_frame c c'.
Proof.
  apply run_preserves.
  - apply body_frame_refl.
  - apply body_frame_trans.
  - apply setState_frame.
  - apply doAction_with_frame.
  - apply set_with_frame.
Qed.

(** ** Termination: the re-entrancy guards bound the nesting *)

Lemma size_le_card (X : gset Key) : (size X ≤ card Key)%nat.
Proof.
  unfold size, set_size, card. simpl.
  apply submseteq_length, NoDup_submseteq; [apply NoDup_elements|].
  intros x _. apply elem_of_enum.
Qed.

Lemma headroom_frame (c c' : controller) :
  body_frame c c' → headroom c' = headroom c.
Proof. intros [_ _ Ha He _ _]. unfold headroom. by rewrite Ha, He. Qed.

Lemma headroom_marked (key : Key) (c d : controller) :
  key ∉ runningActions c →
  runningActions d = {[key]} ∪ runningActions c →
  runningEnv d = runningEnv c →
  S (headroom d) = headroom c.
Proof.
  intros Hin Ha He. unfold headroom. rewrite Ha, He.
  pose proof (size_le_card ({[key]} ∪ runningActions c)) as Hle.
  rewrite size_union in Hle |- * by set_solver.
  rewrite size_singleton in Hle |- *. lia.
Qed.

Lemma headroom_runningEnv (c d : controller) :
  runningEnv c = false → runningEnv d = true →
  runningActions d = runningActions c →
  S (headroom d) = headroom c.
Proof. intros He Hd Ha. unfold headroom. rewrite Ha, He, Hd. lia. Qed.

(** With more fuel than headroom, every body runs to completion. *)
Lemma run_total fuel p (c : controller) :
  (headroom c < fuel)%nat → is_Some (run cls fuel p c).
Proof.
  revert p c. induction fuel as [|fuel IHfuel]; [lia|].
  induction p as [|k IH|k IH|s k IH|key args k IH|e k IH]; intros c Hfuel.
  - by rewrite run_Done.
  - rewrite run_ReadState. by apply IH.
  - rewrite run_ReadEnv. by apply IH.
  - rewrite run_SetState. apply IH.
    by rewrite (headroom_frame _ _ (setState_frame s c)).
  - rewrite run_CallAction.
    assert (Hcall : is_Some (doAction_with cls (run cls fuel) key args c)).
    { unfold doAction_with.
      destruct (isDestroyed c); [done|].
      destruct (marked_as_running cls key c) eqn:Hmark; [done|].
      apply not_marked_as_running in Hmark as [Hin _].
      destruct (IHfuel (actions cls key args)
        (with_runningActions ({[key]} ∪
           runningActions (doIncreaseTransactionLevel c))
           (doIncreaseTransactionLevel c))) as [c3 ->]; [|done].
      pose proof (headroom_marked key c
        (with_runningActions ({[key]} ∪
           runningActions (doIncreaseTransactionLevel c))
           (doIncreaseTransactionLevel c)) Hin) as Hm.
      steps_in Hm. steps. specialize (Hm eq_refl eq_refl). lia. }
    destruct Hcall as [c1 Hc1]. rewrite Hc1. simpl. apply IH.
    rewrite (headroom_frame c c1); [done|].
    eapply doAction_with_frame, Hc1. apply run_frame.
  - rewrite run_CallSet.
    assert (Hcall : is_Some (set_with cls (run cls fuel) e c)).
    { unfold set_with, doEnvUpdate_with.
      destruct (isDestroyed c); [done|].
      destruct (doesEnvDiffer cls _ _ e); [|done].
      destruct (runningEnv (doIncreaseTransactionLevel c)) eqn:He,
        (envWillUpdate cls) as [hook|]; try done.
      destruct (IHfuel (hook e)
        (with_runningEnv true (doIncreaseTransactionLevel c)))
        as [c3 ->]; [|done].
      pose proof (headroom_runningEnv c
        (with_runningEnv true (doIncreaseTransactionLevel c))) as Hm.
      steps_in He. steps_in Hm. specialize (Hm He eq_refl eq_refl).
      steps. lia. }
    destruct Hcall as [c1 Hc1]. rewrite Hc1. simpl. apply IH.
    rewrite (headroom_frame c c1); [done|].
    eapply set_with_frame, Hc1. apply run_frame.
Qed.

(** ** The callbacks of one call *)

Lemma delivered_outermost mid (c : controller) :
  transactionLevel c = 0 → delivered mid c = bracket mid c.
Proof. unfold delivered, bracket. by intros ->. Qed.

Lemma delivered_nested mid (c : controller) :
  1 ≤ transactionLevel c → delivered mid c = mid.
Proof.
  unfold delivered. intros Hlvl. level_tests. by rewrite app_nil_r.
Qed.

Lemma setState_shape s (c : controller) :
  isDestroyed c = false →
  doesStateDiffer cls (env c) (state c) s = true →
  notified (setState cls s c) =
    notified c ++ delivered (if isRunning c then []
                             else one_change (output cls (env c) s) c) c
  ∧ transactionLevel (setState cls s c) = transactionLevel c
  ∧ state (setState cls s c) = s.
Proof.
  intros Hdes Hdiff. unfold setState, doStateUpdate, delivered, one_change.
  rewrite Hdes, Hdiff. steps.
  split; [by rewrite <- !app_assoc|]. split; [lia | done].
Qed.

Lemma doAction_with_shape exec key args (c c' : controller) :
  (∀ p d d', exec p d = Some d' → body_frame d d') →
  isDestroyed c = false → marked_as_running cls key c = false →
  0 ≤ transactionLevel c →
  doAction_with cls exec key args c = Some c' →
  ∃ mid, Forall is_change mid ∧
    notified c' = notified c ++ delivered mid c.
Proof.
  intros Hexec Hdes Hin Hlvl. unfold doAction_with, delivered.
  rewrite Hdes, Hin.
  destruct (exec _ _) as [c3|] eqn:Hbody; [|discriminate].
  simpl. intros [= <-].
  apply Hexec in Hbody.
  destruct Hbody as [Hd Hl Ha He Ht (ns & Hn & Hc & Hr)].
  steps_in Hl; steps_in Ht; steps_in Hn; steps_in Hc. clear Hr.
  destruct (notificationIsQueued _); steps; rewrite Hn, Hl, Ht.
  - lazymatch goal with |- context [(_ ++ ns) ++ ?X] => exists (ns ++ X) end.
    split; [|by rewrite <- !app_assoc].
    apply Forall_app. split; [apply Hc; lia|].
    destruct (isRunning _); [constructor | apply Forall_is_change_map].
  - exists ns. split; [apply Hc; lia | by rewrite <- !app_assoc].
Qed.

Lemma set_with_shape exec e (c c' : controller) :
  (∀ p d d', exec p d = Some d' → body_frame d d') →
  isDestroyed c = false → 0 ≤ transactionLevel c →
  set_with cls exec e c = Some c' →
  ∃ mid, Forall is_change mid ∧
    notified c' = notified c ++ delivered mid c.
Proof.
  intros Hexec Hdes Hlvl. unfold set_with, doEnvUpdate_with, delivered.
  rewrite Hdes. steps.
  destruct (doesEnvDiffer cls (env c) (state c) e).
  2:{ simpl. intros [= <-]. steps. exists [].
      split; [constructor | by rewrite <- !app_assoc]. }
  destruct (runningEnv c) eqn:Henv, (envWillUpdate cls) as [hook|].
  1,2,4: simpl; intros [= <-]; steps;
    lazymatch goal with |- ∃ _, _ ∧ (_ ++ ?X) ++ _ = _ => exists X end;
    (split; [|by rewrite <- !app_assoc]);
    (destruct (isRunning c); [constructor | apply Forall_is_change_map]).
  destruct (exec _ _) as [c1|] eqn:Hbody; [|discriminate].
  simpl. intros [= <-].
  apply Hexec in Hbody.
  destruct Hbody as [Hd Hl Ha He Ht (ns & Hn & Hc & Hr)].
  steps_in Hl; steps_in Ht; steps_in Hn; steps_in Hc. clear Hr.
  steps. rewrite Hn, Hl, Ht.
  lazymatch goal with |- context [(_ ++ ns) ++ ?X] => exists (ns ++ X) end.
  split; [|by rewrite <- !app_assoc].
  apply Forall_app. split; [apply Hc; lia|].
  destruct (isRunning _); [constructor | apply Forall_is_change_map].
Qed.

Lemma perform_frame fuel op (c c' : controller) :
  perform cls fuel op c = Some c' → body_frame c c'.
Proof.
  destruct op as [e|key args|s]; simpl.
  - apply set_with_frame, run_frame.
  - apply doAction_with_frame, run_frame.
  - intros [= <-]. apply setState_frame.
Qed.

Lemma perform_total fuel op (c : controller) :
  (headroom c < fuel)%nat → is_Some (perform cls fuel op c).
Proof.
  intros Hfuel.
  assert (Hstep : is_Some (run cls (S fuel)
    match op with
    | ToSet e => CallSet e Done
    | ToAction key args => CallAction key args Done
    | ToSetState s => SetState s Done
    end c)) by (apply run_total; lia).
  destruct op as [e|key args|s]; simpl; [| |done].
  - rewrite run_CallSet in Hstep. unfold public_set.
    by destruct (set_with _ _ _ _).
  - rewrite run_CallAction in Hstep. unfold doAction.
    by destruct (doAction_with _ _ _ _ _).
Qed.

(** [setState] while an action or [envWillUpdate] is on the stack only
    queues the notification. *)
Lemma setState_running s (c : controller) :
  isDestroyed c = false → isRunning c = true → 1 ≤ transactionLevel c →
  setState cls s c =
    if doesStateDiffer cls (env c) (state c) s
    then with_notificationIsQueued true (with_state s c)
    else c.
Proof.
  intros Hdes Hrun Hlvl. unfold setState, doStateUpdate. rewrite Hdes.
  destruct (doesStateDiffer _ _ _ _); [|done].
  steps. rewrite Hrun. level_tests.
  apply controller_ext; fields; rewrite ?app_nil_r; try done. lia.
Qed.

(** C4: a call made at level 0 that passes the guards delivers
    [onTransactionStart] once to every listener, then only [onChange]s,
    then [onTransactionEnd] once to every listener, and leaves the level
    at 0; a call nested in an open transaction delivers [onChange]s only.
    So every [onChange] lies between a start and its matching end. *)
Theorem transaction_bracket_once fuel op (c : controller) :
  (headroom c < fuel)%nat → 0 ≤ transactionLevel c →
  ∃ c' mid, perform cls fuel op c = Some c' ∧
    transactionLevel c' = transactionLevel c ∧
    Forall is_change mid ∧
    notified c' = notified c ++
      (if opens_transaction cls op c
       then if transactionLevel c =? 0 then bracket mid c else mid
       else []).
Proof.
  intros Hfuel Hlvl.
  destruct (perform_total fuel op c Hfuel) as [c' Hc']. exists c'.
  pose proof (perform_frame _ _ _ _ Hc') as [_ _ _ _ Ht _].
  cut (∃ mid, Forall is_change mid ∧
    notified c' = notified c ++
      (if opens_transaction cls op c then delivered mid c else [])).
  { intros (mid & Hmid & Hn). exists mid. repeat split; try done.
    rewrite Hn. destruct (opens_transaction cls op c); [|done].
    destruct (Z.eqb_spec (transactionLevel c) 0).
    - by rewrite delivered_outermost.
    - rewrite delivered_nested; [done | lia]. }
  assert (Hrej : ∀ d, Some (console_error d c) = Some c' →
    notified c' = notified c ++ []).
  { intros d [= <-]. fields. by rewrite app_nil_r. }
  unfold opens_transaction.
  destruct op as [e|key args|s]; cbn [perform] in Hc'.
  - unfold public_set in Hc'. destruct (isDestroyed c) eqn:Hdes.
    + exists []. unfold set_with in Hc'. rewrite Hdes in Hc'. eauto.
    + eapply set_with_shape in Hc' as (mid & Hmid & Hn);
        [|apply run_frame|done..].
      by exists mid.
  - unfold doAction in Hc'. destruct (isDestroyed c) eqn:Hdes.
    + exists []. unfold doAction_with in Hc'. rewrite Hdes in Hc'. eauto.
    + destruct (marked_as_running cls key c) eqn:Hin.
      * exists []. unfold doAction_with in Hc'.
        rewrite Hdes, Hin in Hc'. eauto.
      * eapply doAction_with_shape in Hc' as (mid & Hmid & Hn);
          [|apply run_frame|done..].
        by exists mid.
  - injection Hc' as <-. destruct (isDestroyed c) eqn:Hdes.
    + exists []. unfold setState. rewrite Hdes. fields.
      by rewrite app_nil_r.
    + destruct (doesStateDiffer cls (env c) (state c) s) eqn:Hdiff.
      * destruct (setState_shape s c Hdes Hdiff) as (Hn & _ & _).
        eexists. split; [|exact Hn].
        destruct (isRunning c); [constructor | apply Forall_is_change_map].
      * exists []. unfold setState, doStateUpdate. rewrite Hdes, Hdiff.
        by rewrite app_nil_r.
Qed.

(** C8: calling an action that is marked as running logs a diagnostic and
    returns at once, whatever its body: state, env, listeners and level are
    as before and nothing is delivered. A live call marks its key before
    the body starts, a body leaves the marks as it found them, and inside a
    body a call to a marked key is skipped: no action re-enters itself.
    (A live call to an action that is not running is skipped in the same
    way when [{}] inherits a member under its name, and else runs the
    body.) *)
Theorem running_action_is_rejected fuel key args (c : controller) :
  key ∈ runningActions c →
  (∃ d, doAction cls fuel key args c = Some (console_error d c) ∧
        d = (if isDestroyed c then ActionOnDestroyed
             else ActionAlreadyRunning key) ∧
        state (console_error d c) = state c ∧
        env (console_error d c) = env c ∧
        notified (console_error d c) = notified c ∧
        console (console_error d c) = console c ++ [d] ∧
        runningActions (console_error d c) = runningActions c ∧
        transactionLevel (console_error d c) = transactionLevel c ∧
        ∀ k, run cls (S fuel) (CallAction key args k) c =
             run cls (S fuel) k (console_error d c)) ∧
  (∀ p c', run cls fuel p c = Some c' → key ∈ runningActions c') ∧
  (∀ c0 : controller, isDestroyed c0 = false → key ∉ runningActions c0 →
     key ∈ runningActions (enter_action key c0) ∧
     doAction cls fuel key args c0 =
       if inherited cls key
       then Some (console_error (ActionAlreadyRunning key) c0)
       else c3 ← run cls fuel (actions cls key args) (enter_action key c0);
            Some (leave_action cls key c3)).
Proof.
  intros Hin. split; [|split].
  - eexists. split; [|split; [reflexivity|]].
    + unfold doAction, doAction_with.
      destruct (isDestroyed c); [done|].
      by rewrite running_marked_as_running.
    + repeat split; try by destruct (isDestroyed c).
      intros k. rewrite run_CallAction. unfold doAction_with.
      destruct (isDestroyed c); [done|].
      by rewrite running_marked_as_running.
  - intros p c' Hrun. apply run_frame in Hrun as [_ _ Ha _ _ _].
    by rewrite Ha.
  - intros c0 Hdes Hout. split; [unfold enter_action; fields; set_solver|].
    unfold doAction, doAction_with, marked_as_running.
    rewrite Hdes, bool_decide_eq_false_2 by done.
    by destruct (inherited cls key).
Qed.

(** C5 (amended): on a live instance [set(input)] returns; when
    [doesEnvDiffer] reports a difference the stored env is [input] and
    [get()] is the output of [input], and when it reports none the stored
    env, the state and [get()] are what they were. *)
Theorem set_replaces_env_when_it_differs fuel e (c : controller) :
  isDestroyed c = false → (headroom c < fuel)%nat →
  ∃ c', public_set cls fuel e c = Some c' ∧
    if doesEnvDiffer cls (env c) (state c) e
    then env c' = e ∧ public_get cls c' = output cls e (state c')
    else env c' = env c ∧ state c' = state c ∧
         public_get cls c' = public_get cls c.
Proof.
  intros Hdes Hfuel.
  destruct (perform_total fuel (ToSet e) c Hfuel) as [c' Hc'].
  exists c'. split; [done|]. simpl in Hc'.
  unfold public_set, set_with, doEnvUpdate_with, public_get in *.
  rewrite Hdes in Hc'. steps_in Hc'.
  destruct (doesEnvDiffer cls (env c) (state c) e).
  - destruct (runningEnv c), (envWillUpdate cls) as [hook|];
      try (simpl in Hc'; injection Hc' as <-; steps; done).
    destruct (run cls fuel _ _) as [c1|]; [|discriminate].
    simpl in Hc'. injection Hc' as <-. by steps.
  - simpl in Hc'. injection Hc' as <-. by steps.
Qed.

(** ** Counting notifications *)

Lemma only_reads_run fuel p (c : controller) :
  only_reads p → run cls (S fuel) p c = Some c.
Proof.
  induction 1 as [|k _ IH|k _ IH].
  - apply run_Done.
  - rewrite run_ReadState. apply IH.
  - rewrite run_ReadEnv. apply IH.
Qed.

Lemma doAction_live fuel key args (c : controller) :
  isDestroyed c = false → key ∉ runningActions c →
  inherited cls key = false →
  doAction cls fuel key args c =
    c3 ← run cls fuel (actions cls key args) (enter_action key c);
    Some (leave_action cls key c3).
Proof.
  intros Hdes Hout Hname. unfold doAction, doAction_with.
  by rewrite Hdes, (proj2 (not_marked_as_running key c)).
Qed.

(** A live call to an action under an inherited name is skipped. *)
Lemma doAction_inherited fuel key args (c : controller) :
  isDestroyed c = false → inherited cls key = true →
  doAction cls fuel key args c =
    Some (console_error (ActionAlreadyRunning key) c).
Proof.
  intros Hdes Hname. unfold doAction, doAction_with.
  by rewrite Hdes, inherited_marked_as_running.
Qed.

(** A call of an action on an instance at rest: the body runs with every
    notification deferred, and the one delivered afterwards is the queued
    one, if any. *)
Lemma enter_action_idle key (c : controller) :
  idle c →
  isDestroyed (enter_action key c) = false ∧
  isRunning (enter_action key c) = true ∧
  transactionLevel (enter_action key c) = 1 ∧
  notificationIsQueued (enter_action key c) = false ∧
  env (enter_action key c) = env c ∧
  state (enter_action key c) = state c.
Proof.
  intros [Hdes _ _ Hlvl Hq]. unfold enter_action. steps. by rewrite Hlvl.
Qed.

Lemma doAction_idle_run fuel key args (c c3 : controller) :
  idle c → inherited cls key = false →
  run cls fuel (actions cls key args) (enter_action key c) = Some c3 →
  doAction cls fuel key args c = Some (leave_action cls key c3) ∧
  notified (leave_action cls key c3) =
    notified c ++
    bracket (if notificationIsQueued c3
             then one_change (public_get cls c3) c else []) c ∧
  state (leave_action cls key c3) = state c3 ∧
  env (leave_action cls key c3) = env c3 ∧
  idle (leave_action cls key c3).
Proof.
  intros [Hdes Hact Henv Hlvl Hq] Hname Hc3.
  assert (Hout : key ∉ runningActions c) by (rewrite Hact; set_solver).
  rewrite doAction_live, Hc3 by done. split; [done|].
  apply run_frame in Hc3 as [Hd Hl Ha He Ht (ns & Hn & _ & Hr)].
  unfold enter_action in Hd, Hl, Ha, He, Ht, Hn, Hr.
  steps_in Hd; steps_in Hl; steps_in Ha; steps_in He; steps_in Ht;
    steps_in Hn; steps_in Hr.
  rewrite Hlvl in Ht, Hn, Hr. simpl (0 + 1 =? 1) in Hn.
  destruct Hr as [-> _]; [lia | done |].
  assert (Hback : runningActions c3 ∖ {[key]} = ∅).
  { rewrite Ha, Hact. set_solver. }
  assert (Hrest : isRunning
    (with_runningActions (runningActions c3 ∖ {[key]}) c3) = false).
  { unfold isRunning. fields. rewrite Hback, He, Henv.
    by rewrite bool_decide_eq_true_2. }
  unfold leave_action, bracket, one_change, public_get. fields.
  destruct (notificationIsQueued c3) eqn:Hq3'; steps; rewrite ?Hrest;
    fields; rewrite Hn, Hl, Ht, ?app_nil_r; simpl (0 + 1 - 1 =? 0); fields.
  - split; [by rewrite <- !app_assoc|]. do 2 (split; [done|]).
    split; fields; solve [congruence | done].
  - split; [by rewrite <- !app_assoc|]. do 2 (split; [done|]).
    split; fields; solve [congruence | done].
Qed.

Lemma doAction_idle fuel key args (c : controller) :
  idle c → (headroom c < fuel)%nat → inherited cls key = false →
  ∃ c3, run cls fuel (actions cls key args) (enter_action key c) = Some c3 ∧
    doAction cls fuel key args c = Some (leave_action cls key c3) ∧
    notified (leave_action cls key c3) =
      notified c ++
      bracket (if notificationIsQueued c3
               then one_change (public_get cls c3) c else []) c ∧
    state (leave_action cls key c3) = state c3 ∧
    env (leave_action cls key c3) = env c3 ∧
    idle (leave_action cls key c3).
Proof.
  intros Hidle Hfuel Hname.
  destruct (run_total fuel (actions cls key args) (enter_action key c))
    as [c3 Hc3].
  { destruct Hidle as [_ Hact _ _ _].
    assert (Hout : key ∉ runningActions c) by (rewrite Hact; set_solver).
    pose proof (headroom_marked key c (enter_action key c) Hout) as Hm.
    unfold enter_action in Hm. steps_in Hm.
    specialize (Hm eq_refl eq_refl). unfold enter_action. steps. lia. }
  exists c3. split; [done|]. by apply doAction_idle_run.
Qed.

Lemma setState_deferred s (c : controller) :
  isDestroyed c = false → isRunning c = true → 1 ≤ transactionLevel c →
  doesStateDiffer cls (env c) (state c) s = true →
  isDestroyed (setState cls s c) = false ∧
  isRunning (setState cls s c) = true ∧
  transactionLevel (setState cls s c) = transactionLevel c ∧
  env (setState cls s c) = env c ∧
  state (setState cls s c) = s ∧
  notificationIsQueued (setState cls s c) = true.
Proof.
  intros Hdes Hrun Hlvl Hdiff.
  rewrite setState_running, Hdiff by done. by running.
Qed.

Lemma calls_setState_run fuel e n s p s' (c : controller) :
  calls_setState cls e n s p s' →
  isDestroyed c = false → isRunning c = true → 1 ≤ transactionLevel c →
  env c = e → state c = s →
  ∃ c', run cls (S fuel) p c = Some c' ∧
    state c' = s' ∧ env c' = e ∧
    (notificationIsQueued c = true ∨ (0 < n)%nat →
     notificationIsQueued c' = true).
Proof.
  intros Hp. revert c.
  induction Hp as [s|n s k s' _ IH|n s k s' _ IH|n s s1 k s' Hdiff _ IH];
    intros c Hdes Hrun Hlvl He Hs.
  - exists c. rewrite run_Done. repeat split; try done.
    intros [?|?]; [done | lia].
  - rewrite run_ReadState, Hs. by apply IH.
  - rewrite run_ReadEnv, He. by apply IH.
  - rewrite run_SetState.
    destruct (setState_deferred s1 c) as (D1 & R1 & L1 & E1 & S1 & Q1);
      [done | done | done | by rewrite He, Hs |].
    destruct (IH (setState cls s1 c)) as (c' & Hc' & Hs' & He' & Hq');
      [done | done | lia | congruence | done |].
    exists c'. repeat split; try done. intros _. apply Hq'. by left.
Qed.

(** C3: an action whose body calls [setState] three times, each time with
    a state that [doesStateDiffer] reports as different, delivers to every
    subscriber exactly one [onChange], computed from the last of the three
    states, inside one [onTransactionStart]/[onTransactionEnd] pair; unless
    the action is declared under a name that [Object.prototype] defines.
    Then [this.$runningActions[key]] is truthy although the action has
    never run, the call is refused as already running, the state stays as
    it was and nothing is delivered. *)
Theorem three_setStates_one_onChange fuel key args s3 (c : controller) :
  idle c →
  calls_setState cls (env c) 3 (state c) (actions cls key args) s3 →
  ∃ c', doAction cls (S fuel) key args c = Some c' ∧
    if inherited cls key
    then c' = console_error (ActionAlreadyRunning key) c ∧
         state c' = state c ∧ notified c' = notified c
    else state c' = s3 ∧
         notified c' =
           notified c ++ bracket (one_change (output cls (env c) s3) c) c.
Proof.
  intros Hidle Hbody.
  destruct (inherited cls key) eqn:Hname.
  { eexists. split; [by apply doAction_inherited; [destruct Hidle|]|].
    by fields. }
  destruct (enter_action_idle key c Hidle)
    as (Hdes & Hrun & Hlvl & _ & He & Hs).
  destruct (calls_setState_run fuel _ _ _ _ _ (enter_action key c) Hbody)
    as (c3 & Hc3 & Hs3 & He3 & Hq3); [done | done | lia | done | done |].
  destruct (doAction_idle_run (S fuel) key args c c3 Hidle Hname Hc3)
    as (Hc' & Hn & Hs' & _ & _).
  eexists. split; [exact Hc'|]. rewrite Hs', Hn, Hq3 by (right; lia).
  unfold public_get. by rewrite Hs3, He3.
Qed.

Lemma public_set_idle fuel e (c : controller) :
  idle c → (headroom c < fuel)%nat →
  ∃ c', public_set cls fuel e c = Some c' ∧
    notified c' =
      notified c ++
      bracket (if doesEnvDiffer cls (env c) (state c) e
               then one_change (public_get cls c') c else []) c ∧
    idle c'.
Proof.
  intros [Hdes Hact Henv Hlvl Hq] Hfuel.
  unfold public_set, set_with, doEnvUpdate_with, bracket, one_change,
    public_get.
  rewrite Hdes. steps. rewrite Hlvl, Henv. simpl (0 + 1 =? 1).
  assert (Hrest : isRunning c = false).
  { unfold isRunning. by rewrite Henv, Hact, bool_decide_eq_true_2. }
  destruct (doesEnvDiffer cls (env c) (state c) e).
  2:{ cbn [mbind option_bind]. eexists. split; [done|]. steps.
      simpl (0 + 1 - 1 =? 0).
      split; [by rewrite <- !app_assoc|]. by split. }
  destruct (envWillUpdate cls) as [hook|].
  2:{ cbn [mbind option_bind]. eexists. split; [done|]. steps.
      rewrite Hrest. simpl (0 + 1 - 1 =? 0). fields.
      split; [by rewrite <- !app_assoc|]. by split. }
  destruct (run_total fuel (hook e) (with_runningEnv true
    (notify (map TransactionStart (listeners c))
       (with_transactionLevel (0 + 1) c)))) as [c1 Hc1].
  { unfold headroom in *. fields. rewrite Henv in Hfuel. lia. }
  rewrite Hc1. cbn [mbind option_bind]. eexists. split; [done|].
  apply run_frame in Hc1 as [Hd Hl Ha He Ht (ns & Hn & _ & Hr)].
  fields_in Hd; fields_in Hl; fields_in Ha; fields_in He; fields_in Ht;
    fields_in Hn; fields_in Hr.
  destruct Hr as [-> _]; [lia | done |].
  assert (Hrest1 : isRunning (with_runningEnv false c1) = false).
  { unfold isRunning. fields. by rewrite Ha, Hact, bool_decide_eq_true_2. }
  steps. rewrite Hrest1, Hn, Hl, Ht, app_nil_r. simpl (0 + 1 - 1 =? 0). fields.
  split; [by rewrite <- !app_assoc|]. split; fields; solve [congruence|done].
Qed.

(** Every instance starts at rest and is at rest again after each call. *)
Lemma new_idle (e : Env) (initialState : St) :
  idle (new (Key := Key) (Out := Out) e initialState).
Proof. by split. Qed.

Lemma public_subscribe_idle l (c : controller) :
  idle c → idle (public_subscribe l c).
Proof. by intros []. Qed.

Lemma setState_idle s (c : controller) : idle c → idle (setState cls s c).
Proof.
  intros [Hdes Hact Henv Hlvl Hq]. unfold setState, doStateUpdate.
  rewrite Hdes. destruct (doesStateDiffer _ _ _ _); [|done].
  assert (Hrest : isRunning c = false).
  { unfold isRunning. by rewrite Henv, Hact, bool_decide_eq_true_2. }
  steps. rewrite Hrest. split; fields; try done. lia.
Qed.

Lemma console_error_idle d (c : controller) :
  idle c → idle (console_error d c).
Proof. intros []. by split. Qed.

Lemma perform_idle fuel op (c : controller) :
  idle c → (headroom c < fuel)%nat →
  ∃ c', perform cls fuel op c = Some c' ∧ idle c'.
Proof.
  intros Hidle Hfuel. destruct op as [e|key args|s]; cbn [perform].
  - destruct (public_set_idle fuel e c Hidle Hfuel) as (c' & ? & _ & ?).
    eauto.
  - destruct (inherited cls key) eqn:Hname.
    { eexists. split; [by apply doAction_inherited; [destruct Hidle|]|].
      by apply console_error_idle. }
    destruct (doAction_idle fuel key args c Hidle Hfuel Hname)
      as (c3 & _ & ? & _ & _ & _ & ?).
    eauto.
  - eexists. split; [done|]. by apply setState_idle.
Qed.

Section AlwaysDiffer.

Hypothesis env_differs : ∀ e s e', doesEnvDiffer cls e s e' = true.
Hypothesis state_differs : ∀ e s s', doesStateDiffer cls e s s' = true.

Lemma set_with_queues exec e (c c' : controller) :
  (∀ p d d', exec p d = Some d' → body_frame d d') →
  isDestroyed c = false → isRunning c = true →
  set_with cls exec e c = Some c' → notificationIsQueued c' = true.
Proof.
  intros Hexec Hdes Hrun. unfold set_with, doEnvUpdate_with.
  rewrite Hdes, env_differs. steps.
  destruct (runningEnv c) eqn:Henv, (envWillUpdate cls) as [hook|];
    try (simpl; intros [= <-]; steps; by rewrite Hrun).
  destruct (exec _ _) as [c1|] eqn:Hbody; [|discriminate].
  simpl. intros [= <-]. steps.
  apply Hexec in Hbody as [_ _ Ha _ _ _]. fields_in Ha.
  unfold isRunning in *. fields. by rewrite Ha, <- Hrun, Henv.
Qed.

Lemma run_always_sets_queues fuel p (c c' : controller) :
  always_sets p →
  isDestroyed c = false → isRunning c = true → 1 ≤ transactionLevel c →
  run cls fuel p c = Some c' → notificationIsQueued c' = true.
Proof.
  intros Hp. revert c.
  destruct fuel as [|fuel]; [discriminate|].
  assert (Hkeep : ∀ k (d : controller),
    isRunning d = true → 1 ≤ transactionLevel d →
    notificationIsQueued d = true →
    run cls (S fuel) k d = Some c' → notificationIsQueued c' = true).
  { intros k d Hrun Hlvl Hq Hk.
    apply run_frame in Hk as [_ _ _ _ _ (ns & _ & _ & Hr)].
    destruct (Hr Hlvl Hrun) as [_ Hq']. by apply Hq'. }
  induction Hp as [s k|e k|k _ IH|k _ IH|key args k _ IH];
    intros c Hdes Hrun Hlvl.
  - rewrite run_SetState, setState_running, state_differs by done.
    by apply Hkeep.
  - rewrite run_CallSet.
    destruct (set_with _ _ _ _) as [c1|] eqn:Hset; [|discriminate].
    simpl.
    pose proof (set_with_frame _ _ _ _ (run_frame fuel) Hset)
      as [_ _ Ha He Ht _].
    apply Hkeep.
    + by rewrite (isRunning_frame c c1).
    + lia.
    + eapply set_with_queues, Hset; [apply run_frame|done..].
  - rewrite run_ReadState. by apply IH.
  - rewrite run_ReadEnv. by apply IH.
  - rewrite run_CallAction.
    destruct (doAction_with _ _ _ _ _) as [c1|] eqn:Hact; [|discriminate].
    simpl.
    pose proof (doAction_with_frame _ _ _ _ _ (run_frame fuel) Hact)
      as [Hd _ Ha He Ht _].
    apply IH; [congruence | by rewrite (isRunning_frame c c1) | lia].
Qed.

End AlwaysDiffer.

Section NeverDiffer.

Hypothesis env_same : ∀ e s e', doesEnvDiffer cls e s e' = false.
Hypothesis state_same : ∀ e s s', doesStateDiffer cls e s s' = false.

Lemma run_quiet fuel p (c c' : controller) :
  run cls fuel p c = Some c' → quiet c c'.
Proof.
  apply run_preserves.
  - intros d. split; [apply body_frame_refl | done].
  - intros c1 c2 c3 [Hf1 Hq1] [Hf2 Hq2].
    split; [by eapply body_frame_trans|].
    intros Hdes Hlvl Hq. destruct (Hq1 Hdes Hlvl Hq) as [Hn1 Hq1'].
    destruct Hf1 as [Hd _ _ _ Ht _].
    destruct Hq2 as [Hn2 Hq2']; [congruence | lia | done |].
    split; congruence.
  - intros s d. split; [apply setState_frame|].
    intros Hdes _ Hq. unfold setState, doStateUpdate.
    by rewrite Hdes, state_same.
  - intros exec key args d d' Hexec Hd.
    split; [eapply doAction_with_frame, Hd; intros; by eapply Hexec|].
    intros Hdes Hlvl Hq. unfold doAction_with in Hd. rewrite Hdes in Hd.
    destruct (marked_as_running cls key d); [by injection Hd as <-|].
    destruct (exec _ _) as [c3|] eqn:Hbody; [|discriminate].
    simpl in Hd. injection Hd as <-.
    apply Hexec in Hbody as [[_ _ _ _ Ht3 _] Hq3].
    steps_in Hq3. steps_in Ht3.
    destruct Hq3 as [Hn3 Hq3]; [done | lia | done |].
    fields. rewrite Hq3. steps. rewrite Hn3, Ht3. level_tests.
    by rewrite !app_nil_r.
  - intros exec e d d' Hexec Hd.
    split; [eapply set_with_frame, Hd; intros; by eapply Hexec|].
    intros Hdes Hlvl Hq. unfold set_with, doEnvUpdate_with in Hd.
    rewrite Hdes, env_same in Hd. simpl in Hd. injection Hd as <-.
    steps. level_tests. by rewrite !app_nil_r.
Qed.

End NeverDiffer.

(** C6 (amended): on an instance at rest, with hooks that always report a
    difference every [set] delivers exactly one [onChange] per listener,
    and so does every action whose body calls [setState] or [set]; an
    action whose body only reads delivers none. With hooks that always
    report sameness no [set] and no action delivers any [onChange]. In all
    cases the start/end pair is delivered around the call. The actions
    meant are those declared under a name that [Object.prototype] does not
    define. *)
Theorem notifications_per_call fuel (c : controller) :
  idle c → (headroom c < fuel)%nat →
  ((∀ e s e', doesEnvDiffer cls e s e' = true) →
   (∀ e s s', doesStateDiffer cls e s s' = true) →
   (∀ e, ∃ c', public_set cls fuel e c = Some c' ∧
       notified c' =
         notified c ++ bracket (one_change (public_get cls c') c) c) ∧
   (∀ key args, inherited cls key = false →
      always_sets (actions cls key args) →
      ∃ c', doAction cls fuel key args c = Some c' ∧
        notified c' =
          notified c ++ bracket (one_change (public_get cls c') c) c) ∧
   (∀ key args, inherited cls key = false →
      only_reads (actions cls key args) →
      ∃ c', doAction cls fuel key args c = Some c' ∧
        notified c' = notified c ++ bracket [] c)) ∧
  ((∀ e s e', doesEnvDiffer cls e s e' = false) →
   (∀ e s s', doesStateDiffer cls e s s' = false) →
   (∀ e, ∃ c', public_set cls fuel e c = Some c' ∧
       notified c' = notified c ++ bracket [] c) ∧
   (∀ key args, inherited cls key = false →
      ∃ c', doAction cls fuel key args c = Some c' ∧
        notified c' = notified c ++ bracket [] c)).
Proof.
  intros Hidle Hfuel.
  assert (Hentered : ∀ key,
    isDestroyed (enter_action key c) = false ∧
    isRunning (enter_action key c) = true ∧
    transactionLevel (enter_action key c) = 1 ∧
    notificationIsQueued (enter_action key c) = false).
  { intros key. destruct Hidle as [Hdes _ _ Hlvl Hq].
    unfold enter_action. steps. by rewrite Hlvl. }
  split.
  - intros Henv Hst. split; [|split].
    + intros e.
      destruct (public_set_idle fuel e c Hidle Hfuel) as (c' & Hc' & Hn & _).
      rewrite Henv in Hn. eauto.
    + intros key args Hname Hbody.
      destruct (doAction_idle fuel key args c Hidle Hfuel Hname)
        as (c3 & Hc3 & Hc' & Hn & Hs & He & _).
      destruct (Hentered key) as (Hdes & Hrun & Hlvl & _).
      eexists. split; [exact Hc'|].
      rewrite (run_always_sets_queues Henv Hst _ _ _ _ Hbody Hdes Hrun
                 ltac:(lia) Hc3) in Hn.
      unfold public_get in *. by rewrite Hs, He.
    + intros key args Hname Hbody.
      destruct (doAction_idle fuel key args c Hidle Hfuel Hname)
        as (c3 & Hc3 & Hc' & Hn & _).
      destruct (Hentered key) as (_ & _ & _ & Hq).
      destruct fuel as [|fuel']; [discriminate|].
      rewrite only_reads_run in Hc3 by done. injection Hc3 as <-.
      rewrite Hq in Hn. eauto.
  - intros Henv Hst. split.
    + intros e.
      destruct (public_set_idle fuel e c Hidle Hfuel) as (c' & Hc' & Hn & _).
      rewrite Henv in Hn. eauto.
    + intros key args Hname.
      destruct (doAction_idle fuel key args c Hidle Hfuel Hname)
        as (c3 & Hc3 & Hc' & Hn & _).
      destruct (Hentered key) as (Hdes & _ & Hlvl & Hq).
      apply (run_quiet Henv Hst) in Hc3 as [_ Hquiet].
      destruct Hquiet as [_ Hq3]; [done | lia | done |].
      rewrite Hq3 in Hn. eauto.
Qed.

(** C7 (amended): [destroy()] empties the listener list and keeps state
    and env; a second [destroy()] changes nothing; afterwards [set], every
    action and [setState] log one diagnostic and change nothing else, also
    when a listener subscribes after destruction, so nothing is delivered
    any more; [get()] still returns the output of the state and env at
    destruction. *)
Theorem destroyed_is_terminal (c : controller) :
  let d := public_destroy c in
  (isDestroyed d = true ∧ listeners d = [] ∧
   state d = state c ∧ env d = env c) ∧
  public_destroy d = d ∧
  public_get cls d = public_get cls c ∧
  (∀ l fuel op, ∃ diag,
     let d' := public_subscribe l d in
     perform cls fuel op d = Some (console_error diag d) ∧
     perform cls fuel op d' = Some (console_error diag d') ∧
     diag = match op with
            | ToSet _ => SetOnDestroyed
            | ToAction _ _ => ActionOnDestroyed
            | ToSetState _ => SetStateOnDestroyed
            end ∧
     state (console_error diag d') = state c ∧
     env (console_error diag d') = env c ∧
     notified (console_error diag d') = notified c ∧
     console (console_error diag d') = console c ++ [diag] ∧
     isDestroyed (console_error diag d') = true).
Proof.
  simpl. repeat split.
  intros l fuel op. eexists. split; [|split; [|split; [reflexivity|]]].
  - by destruct op.
  - by destruct op.
  - by destruct op.
Qed.

(** ** An instance in use *)

Lemma idle_isRunning (c : controller) : idle c → isRunning c = false.
Proof.
  intros [_ Hact Henv _ _]. unfold isRunning.
  by rewrite Henv, Hact, bool_decide_eq_true_2.
Qed.

(** X1: a call on an instance at rest delivers to each listener at most
    one [onChange], between the start and the end, and it carries what
    [get()] returns once the call is over. *)
Theorem one_onChange_per_call fuel op (c : controller) :
  idle c → (headroom c < fuel)%nat →
  ∃ c' (changed : bool),
    perform cls fuel op c = Some c' ∧ idle c' ∧
    notified c' =
      notified c ++
      (if opens_transaction cls op c
       then bracket (if changed then one_change (public_get cls c') c
                     else []) c
       else []).
Proof.
  intros Hidle Hfuel. pose proof Hidle as [Hdes Hact Henv Hlvl Hq].
  unfold opens_transaction. rewrite Hdes. cbn [negb andb].
  destruct op as [e|key args|s]; cbn [perform].
  - destruct (public_set_idle fuel e c Hidle Hfuel) as (c' & Hc' & Hn & ?).
    exists c', (doesEnvDiffer cls (env c) (state c) e). by rewrite Hn.
  - destruct (inherited cls key) eqn:Hname.
    { exists (console_error (ActionAlreadyRunning key) c), false.
      rewrite inherited_marked_as_running by done. cbn [negb].
      split; [by apply doAction_inherited|].
      split; [by apply console_error_idle|]. fields.
      by rewrite app_nil_r. }
    destruct (doAction_idle fuel key args c Hidle Hfuel Hname)
      as (c3 & _ & Hc' & Hn & Hs & He & ?).
    exists (leave_action cls key c3), (notificationIsQueued c3).
    rewrite (proj2 (not_marked_as_running key c))
      by (split; [rewrite Hact; set_solver|done]).
    cbn [negb]. split; [done|]. split; [done|].
    rewrite Hn. unfold public_get. by rewrite Hs, He.
  - exists (setState cls s c), true. split; [done|].
    split; [by apply setState_idle|].
    destruct (doesStateDiffer cls (env c) (state c) s) eqn:Hdiff.
    + destruct (setState_shape s c Hdes Hdiff) as (Hn & _ & Hs).
      rewrite Hn, (idle_isRunning c Hidle), delivered_outermost by done.
      unfold public_get. rewrite Hs.
      replace (env (setState cls s c)) with (env c); [done|].
      unfold setState, doStateUpdate. rewrite Hdes, Hdiff. by steps.
    + unfold setState, doStateUpdate. rewrite Hdes, Hdiff.
      by rewrite app_nil_r.
Qed.

Section Recipients.

Import SimpleControllerUse.

Lemma recipients_starts (ls : list listener) :
  Forall (λ n : notification Out, recipient n ∈ ls)
         (map TransactionStart ls).
Proof. apply Forall_forall. intros n [l [-> ?]]%list_elem_of_fmap. done. Qed.

Lemma recipients_ends (ls : list listener) :
  Forall (λ n : notification Out, recipient n ∈ ls) (map TransactionEnd ls).
Proof. apply Forall_forall. intros n [l [-> ?]]%list_elem_of_fmap. done. Qed.

Lemma recipients_changes (ls : list listener) (o : Out) :
  Forall (λ n : notification Out, recipient n ∈ ls)
         (map (λ l, Change l o) ls).
Proof. apply Forall_forall. intros n [l [-> ?]]%list_elem_of_fmap. done. Qed.

Ltac recipients :=
  repeat (apply Forall_app; split);
  repeat match goal with
  | |- Forall _ (if ?b then _ else _) => destruct b
  end;
  first [ apply Forall_nil_2 | apply recipients_starts
        | apply recipients_ends | apply recipients_changes | assumption ].

Lemma to_subscribers_refl (c : controller) : to_subscribers c c.
Proof. split; [done|]. exists []. by rewrite app_nil_r. Qed.

Lemma rejected_to_subscribers d (c : controller) :
  to_subscribers c (console_error d c).
Proof. split; [done|]. exists []. fields. by rewrite app_nil_r. Qed.

Lemma to_subscribers_trans (c1 c2 c3 : controller) :
  to_subscribers c1 c2 → to_subscribers c2 c3 → to_subscribers c1 c3.
Proof.
  intros (Hl1 & ns1 & Hn1 & Hf1) (Hl2 & ns2 & Hn2 & Hf2).
  split; [congruence|]. exists (ns1 ++ ns2).
  rewrite Hn2, Hn1, app_assoc. split; [done|].
  rewrite Hl1 in Hf2. by apply Forall_app.
Qed.

Lemma setState_to_subscribers s (c : controller) :
  to_subscribers c (setState cls s c).
Proof.
  unfold setState, doStateUpdate.
  destruct (isDestroyed c); [apply rejected_to_subscribers|].
  destruct (doesStateDiffer _ _ _ _); [|apply to_subscribers_refl].
  unfold to_subscribers. steps. split; [done|].
  eexists. split; [by rewrite <- !app_assoc|]. recipients.
Qed.

Lemma doAction_with_to_subscribers exec key args (c c' : controller) :
  (∀ p d d', exec p d = Some d' → to_subscribers d d') →
  doAction_with cls exec key args c = Some c' → to_subscribers c c'.
Proof.
  intros Hexec. unfold doAction_with.
  destruct (isDestroyed c); [intros [= <-]; apply rejected_to_subscribers|].
  destruct (marked_as_running cls key c);
    [intros [= <-]; apply rejected_to_subscribers|].
  destruct (exec _ _) as [c3|] eqn:Hbody; [|discriminate].
  cbn [mbind option_bind]. intros [= <-].
  apply Hexec in Hbody as (Hl & ns & Hn & Hf).
  steps_in Hl. steps_in Hn. steps_in Hf. unfold to_subscribers. fields.
  destruct (notificationIsQueued c3); steps; rewrite Hl, Hn;
    (split; [done|]).
  - lazymatch goal with
    | |- context [((notified c ++ ?S) ++ ns) ++ ?X] =>
        exists (S ++ ns ++ X ++
                if transactionLevel c3 - 1 =? 0
                then map TransactionEnd (listeners c) else [])
    end.
    split; [by rewrite <- !app_assoc|]. recipients.
  - lazymatch goal with
    | |- context [(notified c ++ ?S) ++ ns] =>
        exists (S ++ ns ++
                if transactionLevel c3 - 1 =? 0
                then map TransactionEnd (listeners c) else [])
    end.
    split; [by rewrite <- !app_assoc|]. recipients.
Qed.

Lemma set_with_to_subscribers exec e (c c' : controller) :
  (∀ p d d', exec p d = Some d' → to_subscribers d d') →
  set_with cls exec e c = Some c' → to_subscribers c c'.
Proof.
  intros Hexec. unfold set_with, doEnvUpdate_with.
  destruct (isDestroyed c); [intros [= <-]; apply rejected_to_subscribers|].
  steps.
  destruct (doesEnvDiffer cls (env c) (state c) e).
  2:{ cbn [mbind option_bind]. intros [= <-]. unfold to_subscribers. steps.
      split; [done|]. eexists. split; [by rewrite <- !app_assoc|].
      recipients. }
  destruct (runningEnv c), (envWillUpdate cls) as [hook|].
  1,2,4: cbn [mbind option_bind]; intros [= <-]; unfold to_subscribers;
    steps; (split; [done|]); eexists;
    (split; [by rewrite <- !app_assoc|]); recipients.
  destruct (exec _ _) as [c1|] eqn:Hbody; [|discriminate].
  cbn [mbind option_bind]. intros [= <-].
  apply Hexec in Hbody as (Hl & ns & Hn & Hf).
  steps_in Hl. steps_in Hn. steps_in Hf. unfold to_subscribers. steps.
  rewrite Hl, Hn. split; [done|].
  lazymatch goal with
  | |- context [((notified c ++ ?S) ++ ns) ++ ?X] =>
      exists (S ++ ns ++ X ++
              if transactionLevel c1 - 1 =? 0
              then map TransactionEnd (listeners c) else [])
  end.
  split; [by rewrite <- !app_assoc|]. recipients.
Qed.

Lemma perform_to_subscribers fuel op (c c' : controller) :
  perform cls fuel op c = Some c' → to_subscribers c c'.
Proof.
  assert (Hrun : ∀ fuel p d d',
    run cls fuel p d = Some d' → to_subscribers d d').
  { apply run_preserves.
    - apply to_subscribers_refl.
    - apply to_subscribers_trans.
    - apply setState_to_subscribers.
    - apply doAction_with_to_subscribers.
    - apply set_with_to_subscribers. }
  destruct op as [e|key args|s]; cbn [perform].
  - apply set_with_to_subscribers, Hrun.
  - apply doAction_with_to_subscribers, Hrun.
  - intros [= <-]. apply setState_to_subscribers.
Qed.

Lemma filter_other_id (l : listener) (ls : list listener) :
  l ∉ ls → filter (λ x, x ≠ l) ls = ls.
Proof.
  induction ls as [|x ls IH]; [done|]. intros Hl.
  apply not_elem_of_cons in Hl as [Hne Hl].
  rewrite filter_cons, decide_True by done. by rewrite IH.
Qed.

Lemma splice_first_filter (l : listener) (ls : list listener) :
  NoDup ls → splice_first l ls = filter (λ x, x ≠ l) ls.
Proof.
  induction 1 as [|x ls Hx _ IH]; [done|]. cbn [splice_first].
  rewrite filter_cons. destruct (decide (x = l)) as [->|Hne].
  - rewrite decide_False by (by intros ?). by rewrite filter_other_id.
  - rewrite decide_True by done. by rewrite IH.
Qed.

Lemma with_listeners_same (c : controller) : with_listeners (listeners c) c = c.
Proof. by apply controller_ext. Qed.

(** X2: the function returned by [subscribe] removes that subscription
    and nothing else, the others keeping their order; called again, or
    for a subscription that is not there, it does nothing; and
    subscribing then unsubscribing leaves the instance as it was. *)
Theorem unsubscribe_removes_that_listener l (c : controller) :
  NoDup (listeners c) →
  listeners (unsubscribe l c) = filter (λ x, x ≠ l) (listeners c) ∧
  (l ∉ listeners (unsubscribe l c)) ∧
  unsubscribe l (unsubscribe l c) = unsubscribe l c ∧
  (l ∉ listeners c →
     unsubscribe l c = c ∧ unsubscribe l (public_subscribe l c) = c).
Proof.
  intros Hnd. unfold unsubscribe, public_subscribe. fields.
  rewrite splice_first_filter by done.
  assert (Hout : l ∉ filter (λ x, x ≠ l) (listeners c)).
  { intros [Hne _]%list_elem_of_filter. by apply Hne. }
  split; [done|]. split; [done|]. split.
  - apply controller_ext; fields; try done.
    rewrite splice_first_filter by by apply NoDup_filter.
    by rewrite filter_other_id.
  - intros Hl. split.
    + rewrite filter_other_id by done. apply with_listeners_same.
    + apply controller_ext; fields; try done.
      rewrite splice_first_filter.
      * rewrite filter_app, filter_other_id by done.
        rewrite filter_cons, decide_False by (by intros ?).
        by rewrite filter_nil, app_nil_r.
      * apply NoDup_app. split; [done|]. split; [|apply NoDup_singleton].
        intros x Hx ->%list_elem_of_singleton. done.
Qed.

(** X3: a call delivers callbacks only to the listeners subscribed when
    it is made and leaves the list of listeners alone, so a listener
    hears nothing of the calls made after it has unsubscribed; and on an
    instance at rest such a call returns. *)
Theorem unsubscribed_listener_hears_nothing fuel op l (c : controller) :
  NoDup (listeners c) →
  (idle c → (headroom c < fuel)%nat →
     is_Some (perform cls fuel op (unsubscribe l c))) ∧
  (∀ c', perform cls fuel op (unsubscribe l c) = Some c' →
     listeners c' = filter (λ x, x ≠ l) (listeners c) ∧
     ∃ ns, notified c' = notified c ++ ns ∧
       Forall (λ n, recipient n ∈ listeners c ∧ recipient n ≠ l) ns).
Proof.
  intros Hnd. split.
  { intros [Hdes Hact Henv Hlvl Hq] Hfuel.
    destruct (perform_idle fuel op (unsubscribe l c)) as (c' & -> & _);
      [by split| |by eexists].
    unfold headroom, unsubscribe in *. by fields. }
  intros c' Hc'.
  apply perform_to_subscribers in Hc' as (Hl & ns & Hn & Hf).
  unfold unsubscribe in Hl, Hn, Hf. fields_in Hl. fields_in Hn.
  fields_in Hf. rewrite splice_first_filter in Hl, Hf by done.
  split; [done|]. exists ns. split; [done|].
  eapply Forall_impl; [exact Hf|]. cbn beta.
  intros n [? ?]%list_elem_of_filter. done.
Qed.

Lemma idle_settled (c : controller) :
  idle c ↔ isDestroyed c = false ∧ settled c.
Proof.
  split.
  - intros []. by repeat split.
  - intros [? []]. by split.
Qed.

Lemma headroom_settled (c : controller) :
  settled c → headroom c = (card Key + 1)%nat.
Proof.
  intros [Hact Henv _ _]. unfold headroom.
  rewrite Hact, Henv, size_empty. lia.
Qed.

(** X4: whatever the owner of a handle does with it, one call after the
    other, every call returns, and between calls no transaction is open,
    no action is marked as running and no notification is pending: the
    re-entrancy guards bound the nesting of actions by the number of
    action names. *)
Theorem every_use_returns_settled fuel us (c : controller) :
  settled c → (card Key + 1 < fuel)%nat →
  ∃ c', apply_uses cls fuel us c = Some c' ∧ settled c'.
Proof.
  intros Hc Hfuel. revert c Hc.
  induction us as [|u us IH]; intros c Hc; [by exists c|].
  cbn [apply_uses].
  assert (Hstep : ∃ c1, apply_use cls fuel u c = Some c1 ∧ settled c1).
  { destruct u as [op|l|l|]; cbn [apply_use];
      try (eexists; split; [done|]; by destruct Hc).
    destruct (isDestroyed c) eqn:Hdes.
    - destruct op as [e|key args|s]; cbn [perform];
        unfold public_set, set_with, doAction, doAction_with, setState;
        rewrite Hdes; (eexists; split; [done|]); by destruct Hc.
    - destruct (perform_idle fuel op c) as (c1 & Hc1 & Hidle1).
      + by apply idle_settled.
      + by rewrite headroom_settled.
      + exists c1. split; [done|]. by apply idle_settled in Hidle1 as [_ ?]. }
  destruct Hstep as (c1 & -> & Hc1). cbn [mbind option_bind]. by apply IH.
Qed.

End Recipients.

End EngineFacts.

End SimpleControllerFacts.

Module ControllersFacts.
Import Controllers.

(** C9: called with an object that has no keys,
    [instantiateDefaultControllers] reaches [console.warning(...)]; the
    console has [warn] but no [warning], so the call throws a [TypeError]
    instead of printing a warning and returning the decorator. *)
Theorem instantiateDefaultControllers_without_classes :
  instantiateDefaultControllers (ClassMap []) =
    inl (TypeError_not_a_function "console.warning") ∧
  console_call "warn"
      "instantiateDefaultControllers: called without any classes" =
    inr [("warn",
          "instantiateDefaultControllers: called without any classes")].
Proof. split; reflexivity. Qed.

Section ControlledByPropsFacts.

Context {Out : Type}.
Implicit Types h : host Out.

(** C1: [handleChange] throws exactly when no transaction is open or a
    flush is in progress; otherwise it stores the output under its key,
    marks a change as pending, and touches nothing else. *)
Theorem handleChange_throws_iff key (newState : Out) h :
  ((∃ e, handleChange key newState h = inl e) ↔
     transactionLevel h = 0 ∨ flushLevel h ≠ 0) ∧
  (transactionLevel h = 0 →
     handleChange key newState h = inl ChangeWithoutTransaction) ∧
  (transactionLevel h ≠ 0 → flushLevel h ≠ 0 →
     handleChange key newState h = inl ChangeWhileFlushing) ∧
  (transactionLevel h ≠ 0 → flushLevel h = 0 →
     ∃ h', handleChange key newState h = inr h' ∧
       state h' !! key = Some newState ∧
       (∀ key', key' ≠ key → state h' !! key' = state h !! key') ∧
       changesExist h' = true ∧
       transactionLevel h' = transactionLevel h ∧
       flushLevel h' = flushLevel h ∧
       unlockQueue h' = unlockQueue h ∧
       effects h' = effects h ++ [SetStateOutput key newState]).
Proof.
  unfold handleChange.
  destruct (Z.eqb_spec (transactionLevel h) 0) as [Ht|Ht];
    destruct (Z.eqb_spec (flushLevel h) 0) as [Hf|Hf]; simpl;
    (split; [split; [intros [e He]; simplify_eq; auto
                    | intros [?|?]; try done; eauto]|]);
    (split; [intros; try done|]); (split; [intros; try done|]);
    intros; try done.
  eexists. split; [done|]. simpl.
  split; [apply lookup_insert_eq|].
  split; [intros; by apply lookup_insert_ne|]. done.
Qed.

Lemma forEach_unlock_functions ids queue :
  forEach_unlock (Out := Out) (map JFunction ids ++ queue) =
    (map Unlock ids ++ (forEach_unlock (Out := Out) queue).1,
     (forEach_unlock (Out := Out) queue).2).
Proof.
  induction ids as [|id ids IH]; simpl;
    [by destruct (forEach_unlock queue)|].
  by rewrite IH.
Qed.

Lemma unlocked_app (es1 es2 : list (effect Out)) :
  omap (λ e, match e with Unlock id => Some id | _ => None end) (es1 ++ es2) =
  omap (λ e, match e with Unlock id => Some id | _ => None end) es1 ++
  omap (λ e, match e with Unlock id => Some id | _ => None end) es2.
Proof. apply omap_app. Qed.

Lemma unlocked_map_Unlock ids :
  omap (λ e : effect Out, match e with Unlock id => Some id | _ => None end)
       (map Unlock ids) = ids.
Proof. induction ids; simpl; by f_equal. Qed.

(** A controller that calls [onTransactionEnd] without an [unlock]
    function makes the flush callback throw, with the queue left as it
    was. *)
Lemma flushed_undefined_unlock h queue :
  unlockQueue h = JUndefined :: queue →
  (flushed h).2 = Some (TypeError_not_a_function "unlock") ∧
  unlockQueue (flushed h).1 = unlockQueue h ∧
  effects (flushed h).1 = effects h ++ [].
Proof. unfold flushed. by intros ->. Qed.

Lemma flushes_app (es1 es2 : list (effect Out)) :
  length (omap (λ e : effect Out,
            match e with SetStateFlush => Some e | _ => None end)
            (es1 ++ es2)) =
  (length (omap (λ e : effect Out,
            match e with SetStateFlush => Some e | _ => None end) es1) +
   length (omap (λ e : effect Out,
            match e with SetStateFlush => Some e | _ => None end) es2))%nat.
Proof. by rewrite omap_app, length_app. Qed.

Lemma flushes_map_Unlock ids :
  omap (λ e : effect Out,
     match e with SetStateFlush => Some e | _ => None end)
     (map Unlock ids) = [].
Proof. induction ids; simpl; by f_equal. Qed.

(** The interleavings before B's end all lead to the same bookkeeping. *)
Lemma overlapping_before ka kb (oa ob : Out) ida ids h before :
  transactionLevel h = 0 → flushLevel h = 0 →
  unlockQueue h = map JFunction ids →
  before ∈ overlapping ka kb oa ob (JFunction ida) →
  ∃ h1, deliver_all before h = inr h1 ∧
    transactionLevel h1 = 1 ∧ flushLevel h1 = 0 ∧ changesExist h1 = true ∧
    unlockQueue h1 = map JFunction (ids ++ [ida]) ∧
    flushes h1 = flushes h ∧ scheduled h1 = scheduled h ∧
    unlocked h1 = unlocked h ∧
    (ka ≠ kb → state h1 !! ka = Some oa ∧ state h1 !! kb = Some ob).
Proof.
  intros Ht Hf Hq Hin.
  destruct h as [st tl fl q ce sch es]. simpl in Ht, Hf, Hq. subst tl fl q.
  unfold overlapping in Hin.
  repeat (apply elem_of_cons in Hin as [->|Hin]);
    [..|by apply elem_of_nil in Hin];
    (eexists; split; [reflexivity|]);
    unfold flushes, unlocked; simpl;
    rewrite ?flushes_app, ?omap_app, ?map_app, ?app_nil_r; simpl;
    rewrite ?app_nil_r, ?Nat.add_0_r;
    repeat split; try done; try apply lookup_insert_eq.
  all: rewrite lookup_insert_ne by done; apply lookup_insert_eq.
Qed.

(** The end of the last open transaction with a change pending, and the
    commit of the flush it schedules. *)
Lemma last_end_flushes idb ids h1 :
  transactionLevel h1 = 1 → flushLevel h1 = 0 → changesExist h1 = true →
  unlockQueue h1 = map JFunction ids →
  ∃ h3,
    flushes (handleTransactionEnd (JFunction idb) h1) = S (flushes h1) ∧
    scheduled (handleTransactionEnd (JFunction idb) h1) = S (scheduled h1) ∧
    flushLevel (handleTransactionEnd (JFunction idb) h1) = 1 ∧
    flushed (handleTransactionEnd (JFunction idb) h1) = (h3, None) ∧
    unlocked h3 = unlocked h1 ++ ids ++ [idb] ∧
    unlockQueue h3 = [] ∧
    flushes h3 = S (flushes h1) ∧ scheduled h3 = scheduled h1 ∧
    transactionLevel h3 = 0 ∧ flushLevel h3 = 0 ∧ state h3 = state h1.
Proof.
  intros Ht Hf Hc Hq.
  destruct h1 as [st tl fl q ce sch es]. simpl in Ht, Hf, Hc, Hq.
  subst tl fl q ce.
  unfold flushed, flushes, unlocked. simpl.
  rewrite forEach_unlock_functions. simpl.
  eexists. repeat split; simpl;
    rewrite ?flushes_app, ?omap_app, ?flushes_map_Unlock,
      ?unlocked_map_Unlock, ?app_nil_r; simpl;
    rewrite ?app_nil_r; try done; lia.
Qed.

(** C2: when the transactions of two bound controllers overlap and each
    has emitted a change, nothing is flushed before B's transaction ends;
    the end of B's transaction schedules exactly one flush; when React
    has committed it, every queued unlock has been called, oldest first,
    and the queue is empty. If no change is pending when the level comes
    back to 0, no flush is scheduled. *)
Theorem overlapping_transactions_flush_once
    ka kb (oa ob : Out) ida idb ids h before :
  transactionLevel h = 0 → flushLevel h = 0 →
  unlockQueue h = map JFunction ids →
  before ∈ overlapping ka kb oa ob (JFunction ida) →
  (∃ h1 h3,
     deliver_all before h = inr h1 ∧
     flushes h1 = flushes h ∧ scheduled h1 = scheduled h ∧
     flushes (handleTransactionEnd (JFunction idb) h1) = S (flushes h) ∧
     scheduled (handleTransactionEnd (JFunction idb) h1) = S (scheduled h) ∧
     flushLevel (handleTransactionEnd (JFunction idb) h1) = 1 ∧
     flushed (handleTransactionEnd (JFunction idb) h1) = (h3, None) ∧
     unlocked h3 = unlocked h ++ ids ++ [ida; idb] ∧
     unlockQueue h3 = [] ∧
     flushes h3 = S (flushes h) ∧ scheduled h3 = scheduled h ∧
     transactionLevel h3 = 0 ∧ flushLevel h3 = 0 ∧
     (ka ≠ kb → state h3 !! ka = Some oa ∧ state h3 !! kb = Some ob)) ∧
  (changesExist h = false →
   ∃ h', deliver_all [OnTransactionStart; OnTransactionStart;
                      OnTransactionEnd (JFunction ida);
                      OnTransactionEnd (JFunction idb)] h = inr h' ∧
     flushes h' = flushes h ∧ scheduled h' = scheduled h ∧
     effects h' = effects h ∧ transactionLevel h' = 0 ∧
     unlockQueue h' = unlockQueue h ++ [JFunction ida; JFunction idb]).
Proof.
  intros Ht Hf Hq Hin. split.
  - destruct (overlapping_before ka kb oa ob ida ids h before Ht Hf Hq Hin)
      as (h1 & Hh1 & Ht1 & Hf1 & Hc1 & Hq1 & Hfl1 & Hs1 & Hu1 & Hst1).
    destruct (last_end_flushes idb (ids ++ [ida]) h1 Ht1 Hf1 Hc1 Hq1)
      as (h3 & ? & ? & ? & ? & Hu3 & ? & ? & ? & ? & ? & Hst3).
    exists h1, h3. rewrite Hu3, Hst3, Hu1, <- Hfl1, <- Hs1, <- app_assoc.
    repeat split; try done; by apply Hst1.
  - destruct h as [st tl fl q ce sch es]. simpl in Ht, Hf, Hq. subst tl fl q.
    simpl. intros ->. eexists. split; [reflexivity|].
    unfold flushes. simpl. by rewrite <- app_assoc.
Qed.

End ControlledByPropsFacts.

End ControllersFacts.

Module ResponsiveDualModeControllerFacts.
Import ResponsiveDualModeController.




End ResponsiveDualModeControllerFacts.

Module ControlledByPropsUseFacts.
Import Controllers ControlledByPropsUse.

Section TimelineFacts.

Context {Out : Type}.
Implicit Types h : host Out.

Lemma forEach_unlock_done (q : list jsvalue) (done : list (effect Out)) :
  forEach_unlock q = (done, None) →
  done = map Unlock (functions q) ∧ q = map JFunction (functions q).
Proof.
  revert done. induction q as [|[|id] q IH]; intros done; simpl.
  - by intros [= <-].
  - discriminate.
  - destruct (forEach_unlock q) as [d e]. intros [= <- ->].
    destruct (IH d eq_refl) as [-> Hq]. unfold functions in *. simpl.
    by rewrite <- Hq.
Qed.

(** What one event does to the calls made and the calls owed. *)
Lemma occur_unlocks ev h h' :
  occur ev h = inr h' →
  unlocked h' ++ functions (unlockQueue h') =
  unlocked h ++ functions (unlockQueue h) ++ ended [ev].
Proof.
  destruct ev as [[|key o|unlock]|]; simpl.
  - intros [= <-]. unfold ended. simpl. by rewrite app_nil_r.
  - unfold handleChange.
    destruct (transactionLevel h =? 0); [discriminate|].
    destruct (negb (flushLevel h =? 0)); [discriminate|].
    intros [= <-]. unfold unlocked, ended. simpl.
    by rewrite omap_app, !app_nil_r.
  - intros [= <-]. unfold handleTransactionEnd, unlocked, ended, functions.
    destruct (_ && _); simpl; rewrite !omap_app; simpl;
      by rewrite ?app_nil_r.
  - unfold flushed.
    destruct (forEach_unlock (unlockQueue h)) as [done [e|]] eqn:Hq;
      [discriminate|].
    intros [= <-]. apply forEach_unlock_done in Hq as [-> Hq].
    unfold unlocked, ended, functions. simpl.
    rewrite omap_app, !app_nil_r. f_equal.
    induction (omap _ (unlockQueue h)); simpl; by f_equal.
Qed.

(** X5: as long as nothing throws, the [unlock] functions are called in
    the order in which their transactions ended, none twice and none
    dropped: the calls made so far followed by the queue are the calls
    made before, the old queue and the functions handed over since; and
    right after a commit the queue is empty. *)
Theorem unlocks_in_order_of_transaction_end evs h h' :
  occur_all evs h = inr h' →
  unlocked h' ++ functions (unlockQueue h') =
    unlocked h ++ functions (unlockQueue h) ++ ended evs ∧
  (∀ evs0, evs = evs0 ++ [ReactCommits] →
     unlockQueue h' = [] ∧
     unlocked h' = unlocked h ++ functions (unlockQueue h) ++ ended evs).
Proof.
  intros Hall.
  assert (Hinv : unlocked h' ++ functions (unlockQueue h') =
    unlocked h ++ functions (unlockQueue h) ++ ended evs).
  { revert h Hall. induction evs as [|ev evs IH]; intros h; simpl.
    - intros [= <-]. unfold ended. simpl. by rewrite app_nil_r.
    - destruct (occur ev h) as [e|h1] eqn:Hev; [discriminate|].
      intros Hall. rewrite (IH _ Hall), app_assoc, (occur_unlocks _ _ _ Hev).
      rewrite <- !app_assoc. do 2 f_equal.
      unfold ended, functions. rewrite <- omap_app. f_equal.
      by destruct ev as [[]|]. }
  split; [done|]. intros evs0 ->.
  assert (Hq : unlockQueue h' = []).
  { clear Hinv. revert h Hall.
    induction evs0 as [|ev evs0 IH]; intros h; simpl.
    - unfold flushed.
      destruct (forEach_unlock (unlockQueue h)) as [done [e|]];
        [discriminate|]. by intros [= <-].
    - destruct (occur ev h) as [e|h1]; [discriminate|]. apply IH. }
  split; [done|]. rewrite Hq in Hinv. unfold functions in Hinv at 1.
  simpl in Hinv. by rewrite app_nil_r in Hinv.
Qed.

(** X6: while the component is flushing (from the [setState] of the flush
    until the transactions started in the meantime have ended) it accepts
    no change: a sequence of callbacks goes through without an exception
    exactly when it contains no [onChange], and then it has changed neither
    the outputs nor the pending-change flag and has scheduled nothing. *)
Theorem no_change_while_flushing cbs h :
  1 ≤ flushLevel h → changesExist h = false →
  stays_flushing (flushLevel h) cbs = true →
  match deliver_all cbs h with
  | inl e =>
      existsb is_OnChange cbs = true ∧
      (e = ChangeWithoutTransaction ∨ e = ChangeWhileFlushing)
  | inr h' =>
      existsb is_OnChange cbs = false ∧
      state h' = state h ∧ effects h' = effects h ∧
      scheduled h' = scheduled h ∧ changesExist h' = false ∧
      1 ≤ flushLevel h'
  end.
Proof.
  revert h. induction cbs as [|cb cbs IH]; intros h Hfl Hce Hstay;
    [done|].
  destruct cb as [|key o|unlock]; cbn [deliver_all deliver existsb is_OnChange
    orb]; cbn [stays_flushing] in Hstay.
  - specialize (IH (handleTransactionStart h)). simpl in IH.
    destruct (Z.ltb_spec 0 (flushLevel h)); [|lia].
    by apply IH; [lia|..].
  - unfold handleChange.
    destruct (transactionLevel h =? 0); [auto|].
    destruct (Z.eqb_spec (flushLevel h) 0); [lia|]. simpl. auto.
  - apply andb_true_iff in Hstay as [Hn%Z.ltb_lt Hstay].
    specialize (IH (handleTransactionEnd unlock h)).
    unfold handleTransactionEnd in IH |- *. rewrite Hce, andb_false_r in *.
    simpl in IH. destruct (Z.ltb_spec 0 (flushLevel h)); [|lia].
    by apply IH; [lia|..].
Qed.

End TimelineFacts.

Section SubscriptionFacts.

Implicit Types (pg : page) (t : subscriptions) (p : props).

Lemma declared_lookup names p key :
  declared names p !! key = if decide (key ∈ names) then p !! key else None.
Proof.
  unfold declared. destruct (p !! key) as [c|] eqn:Hp.
  - case_decide.
    + by apply map_lookup_filter_Some.
    + apply map_lookup_filter_None. right. intros c' ?. by simplify_eq.
  - case_decide; apply map_lookup_filter_None; by left.
Qed.

Lemma subscribe_spec key c input pg t :
  canUseDOM pg = true →
  canUseDOM (subscribe key c input (pg, t)).1 = true ∧
  controllerPropNames (subscribe key c input (pg, t)).2 =
    controllerPropNames t ∧
  this_props (subscribe key c input (pg, t)).2 = this_props t ∧
  unsubscribers (subscribe key c input (pg, t)).2 =
    <[key := c]> (unsubscribers t).
Proof.
  intros Hdom. unfold subscribe. cbn [called canUseDOM]. rewrite Hdom.
  by destruct (linked _ !! c) as [otherKey|]; [case_decide|].
Qed.

Lemma unsubscribe_spec key c pg t :
  canUseDOM (unsubscribe key c (pg, t)).1 = canUseDOM pg ∧
  controllerPropNames (unsubscribe key c (pg, t)).2 =
    controllerPropNames t ∧
  this_props (unsubscribe key c (pg, t)).2 = this_props t ∧
  unsubscribers (unsubscribe key c (pg, t)).2 = delete key (unsubscribers t) ∧
  linked (unsubscribe key c (pg, t)).1 = delete c (linked pg).
Proof.
  unfold unsubscribe. destruct (unsubscribers t !! key) eqn:Hu; simpl;
    repeat split; try done.
  symmetry. by apply delete_id.
Qed.

Lemma declared_nil p : declared [] p = ∅.
Proof.
  apply map_eq. intros key. rewrite declared_lookup, lookup_empty.
  case_decide; [|done]. by apply elem_of_nil in H.
Qed.

Lemma declared_cons_Some names p k c :
  p !! k = Some c →
  declared (k :: names) p = <[k := c]> (declared names p).
Proof.
  intros Hk. apply map_eq. intros key.
  rewrite declared_lookup. destruct (decide (key = k)) as [->|Hne].
  - rewrite lookup_insert_eq, decide_True by left. done.
  - rewrite lookup_insert_ne, declared_lookup by done.
    repeat case_decide; try done; set_solver.
Qed.

Lemma declared_cons_None names p k :
  p !! k = None → declared (k :: names) p = declared names p.
Proof.
  intros Hk. apply map_eq. intros key. rewrite !declared_lookup.
  destruct (decide (key = k)) as [->|Hne].
  - rewrite Hk. by repeat case_decide.
  - repeat case_decide; try done; set_solver.
Qed.

Lemma mount_keys_spec keys outputs pg t :
  canUseDOM pg = true →
  canUseDOM (mount_keys keys outputs (pg, t)).2.1 = true ∧
  controllerPropNames (mount_keys keys outputs (pg, t)).2.2 =
    controllerPropNames t ∧
  this_props (mount_keys keys outputs (pg, t)).2.2 = this_props t ∧
  unsubscribers (mount_keys keys outputs (pg, t)).2.2 =
    declared keys (this_props t) ∪ unsubscribers t.
Proof.
  revert outputs pg t. induction keys as [|k keys IH]; intros outputs pg t Hdom.
  { cbn [mount_keys fst snd]. repeat split; try done.
    by rewrite declared_nil, (left_id_L ∅ (∪)). }
  cbn [mount_keys snd]. destruct (this_props t !! k) as [c|] eqn:Hk.
  - destruct (subscribe k c (this_props t) (pg, t)) as [pg1 t1] eqn:Hs.
    pose proof (subscribe_spec k c (this_props t) pg t Hdom) as Hspec.
    rewrite Hs in Hspec. cbn [fst snd] in Hspec.
    destruct Hspec as (Hdom1 & Hn1 & Hp1 & Hu1).
    destruct (IH (set_output k (Some c) outputs) pg1 t1 Hdom1)
      as (Hdom' & Hn' & Hp' & Hu').
    rewrite Hn', Hp', Hu', Hn1, Hp1, Hu1. repeat split; try done.
    rewrite (declared_cons_Some _ _ _ _ Hk).
    apply map_eq. intros key. rewrite !lookup_union.
    destruct (decide (key = k)) as [->|Hne].
    + rewrite !lookup_insert_eq, declared_lookup, Hk.
      destruct (unsubscribers t !! k); by case_decide.
    + by rewrite !lookup_insert_ne by done.
  - destruct (IH outputs pg t Hdom) as (Hdom' & Hn' & Hp' & Hu').
    rewrite Hu', (declared_cons_None _ _ _ Hk). done.
Qed.

Lemma receive_key_spec nextProps key outputs pg t :
  canUseDOM pg = true →
  canUseDOM (receive_key nextProps key (outputs, (pg, t))).2.1 = true ∧
  controllerPropNames (receive_key nextProps key (outputs, (pg, t))).2.2 =
    controllerPropNames t ∧
  this_props (receive_key nextProps key (outputs, (pg, t))).2.2 =
    this_props t ∧
  (∀ k, k ≠ key →
     unsubscribers (receive_key nextProps key (outputs, (pg, t))).2.2 !! k =
     unsubscribers t !! k) ∧
  (unsubscribers t !! key = this_props t !! key ∨
   unsubscribers t !! key = nextProps !! key →
   unsubscribers (receive_key nextProps key (outputs, (pg, t))).2.2 !! key =
   nextProps !! key).
Proof.
  intros Hdom. unfold receive_key. cbn [fst snd].
  destruct (this_props t !! key) as [prev|] eqn:Hprev;
    destruct (nextProps !! key) as [next|] eqn:Hnext.
  - destruct (decide (Some next = Some prev)) as [[= ->]|Hne].
    + rewrite decide_True by done. cbn [fst snd called canUseDOM].
      repeat split; try done. by intros [->| ->].
    + rewrite decide_False by congruence.
      destruct (unsubscribe key prev (pg, t)) as [pg1 t1] eqn:Hu.
      pose proof (unsubscribe_spec key prev pg t) as Hspec.
      rewrite Hu in Hspec. cbn [fst snd] in Hspec.
      destruct Hspec as (Hd1 & Hn1 & Hp1 & Hu1 & _).
      pose proof (subscribe_spec key next nextProps pg1 t1) as Hspec.
      destruct (subscribe key next nextProps (pg1, t1)) as [pg2 t2].
      cbn [fst snd] in Hspec |- *.
      destruct Hspec as (Hd2 & Hn2 & Hp2 & Hu2); [congruence|].
      rewrite Hn2, Hp2, Hu2, Hn1, Hp1, Hu1. repeat split; try done.
      * intros k Hk. by rewrite lookup_insert_ne, lookup_delete_ne.
      * intros _. by rewrite lookup_insert_eq.
  - rewrite decide_False by done.
    pose proof (unsubscribe_spec key prev pg t) as Hspec.
    destruct (unsubscribe key prev (pg, t)) as [pg1 t1].
    cbn [fst snd] in Hspec |- *.
    destruct Hspec as (Hd1 & Hn1 & Hp1 & Hu1 & _).
    rewrite Hn1, Hp1, Hu1. repeat split; try congruence.
    + intros k Hk. by rewrite lookup_delete_ne.
    + intros _. by rewrite lookup_delete_eq.
  - rewrite decide_False by done.
    pose proof (subscribe_spec key next nextProps pg t Hdom) as Hspec.
    destruct (subscribe key next nextProps (pg, t)) as [pg2 t2].
    cbn [fst snd] in Hspec |- *.
    destruct Hspec as (Hd2 & Hn2 & Hp2 & Hu2).
    rewrite Hn2, Hp2, Hu2. repeat split; try done.
    + intros k Hk. by rewrite lookup_insert_ne.
    + intros _. by rewrite lookup_insert_eq.
  - cbn [fst snd]. repeat split; try done. by intros [->| ->].
Qed.

Lemma receive_keys_spec nextProps keys outputs pg t :
  canUseDOM pg = true →
  let r := (foldl (λ acc key, receive_key nextProps key acc)
                  (outputs, (pg, t)) keys).2 in
  canUseDOM r.1 = true ∧
  controllerPropNames r.2 = controllerPropNames t ∧
  this_props r.2 = this_props t ∧
  ∀ k,
    (k ∉ keys → unsubscribers r.2 !! k = unsubscribers t !! k) ∧
    (k ∈ keys →
     unsubscribers t !! k = this_props t !! k ∨
     unsubscribers t !! k = nextProps !! k →
     unsubscribers r.2 !! k = nextProps !! k).
Proof.
  revert outputs pg t.
  induction keys as [|key keys IH]; intros outputs pg t Hdom; cbn zeta.
  { cbn [foldl fst snd]. repeat split; try done. by intros ?%elem_of_nil. }
  cbn [foldl].
  pose proof (receive_key_spec nextProps key outputs pg t Hdom) as Hstep.
  destruct (receive_key nextProps key (outputs, (pg, t)))
    as [outputs1 [pg1 t1]].
  cbn [fst snd] in Hstep. destruct Hstep as (Hd1 & Hn1 & Hp1 & Ho1 & Hk1).
  destruct (IH outputs1 pg1 t1 Hd1) as (Hd & Hn & Hp & Hu).
  rewrite Hn, Hp, Hn1, Hp1. repeat split; try done.
  - intros [Hne Hout]%not_elem_of_cons.
    destruct (Hu k) as [Hout' _]. rewrite Hout' by done. by apply Ho1.
  - intros Hin Hold. destruct (Hu k) as [Hout Hin'].
    destruct (decide (k ∈ keys)) as [Hkeys|Hkeys].
    + apply Hin'; [done|]. rewrite Hp1.
      destruct (decide (k = key)) as [->|Hne].
      * right. by apply Hk1.
      * by rewrite Ho1.
    + rewrite Hout by done.
      apply elem_of_cons in Hin as [->|?]; [|done]. by apply Hk1.
Qed.

Lemma unmount_keys_spec keys pg t :
  let r := foldl (λ st key,
                    match this_props st.2 !! key with
                    | Some c => unsubscribe key c st
                    | None => st
                    end) (pg, t) keys in
  controllerPropNames r.2 = controllerPropNames t ∧
  this_props r.2 = this_props t ∧
  (∀ k, (k ∈ keys → is_Some (this_props t !! k) →
           unsubscribers r.2 !! k = None) ∧
        (unsubscribers t !! k = None → unsubscribers r.2 !! k = None)) ∧
  (∀ c, linked pg !! c = None ∨
        (∃ k, k ∈ keys ∧ this_props t !! k = Some c) →
        linked r.1 !! c = None).
Proof.
  revert pg t. induction keys as [|key keys IH]; intros pg t; cbn zeta.
  { cbn [foldl fst snd]. split; [done|]. split; [done|]. split.
    - intros k. split; [by intros ?%elem_of_nil | done].
    - intros c [?|(k & ?%elem_of_nil & _)]; done. }
  cbn [foldl fst snd].
  destruct (this_props t !! key) as [c0|] eqn:Hkey.
  - pose proof (unsubscribe_spec key c0 pg t) as Hspec.
    destruct (unsubscribe key c0 (pg, t)) as [pg1 t1].
    cbn [fst snd] in Hspec. destruct Hspec as (_ & Hn1 & Hp1 & Hu1 & Hl1).
    destruct (IH pg1 t1) as (Hn & Hp & Hu & Hl). cbn zeta in *.
    rewrite Hn, Hp, Hn1, Hp1. split; [done|]. split; [done|]. split.
    + intros k. destruct (Hu k) as [Hin Hnone]. rewrite Hp1, Hu1 in *.
      split.
      * intros [->|?]%elem_of_cons Hsome; [|by apply Hin].
        apply Hnone, lookup_delete_eq.
      * intros Hk. apply Hnone.
        destruct (decide (k = key)) as [->|Hne];
          [apply lookup_delete_eq | by rewrite lookup_delete_ne].
    + intros c Hc. apply Hl. rewrite Hl1, Hp1.
      destruct (decide (c = c0)) as [->|Hne];
        [left; apply lookup_delete_eq|].
      rewrite lookup_delete_ne by done.
      destruct Hc as [?|(k & [->|?]%elem_of_cons & Hk)]; eauto.
      congruence.
  - destruct (IH pg t) as (Hn & Hp & Hu & Hl). cbn zeta in *.
    split; [done|]. split; [done|]. split.
    + intros k. destruct (Hu k) as [Hin Hnone]. split; [|done].
      intros [->|?]%elem_of_cons Hsome; [|by apply Hin].
      rewrite Hkey in Hsome. by destruct Hsome.
    + intros c Hc. apply Hl.
      destruct Hc as [?|(k & [->|?]%elem_of_cons & Hk)]; eauto.
      congruence.
Qed.

Lemma componentWillMount_spec names p0 pg :
  canUseDOM pg = true →
  canUseDOM (componentWillMount (pg, constructed names p0)).1 = true ∧
  controllerPropNames (componentWillMount (pg, constructed names p0)).2 =
    names ∧
  this_props (componentWillMount (pg, constructed names p0)).2 = p0 ∧
  unsubscribers (componentWillMount (pg, constructed names p0)).2 =
    declared names p0.
Proof.
  intros Hdom.
  pose proof (mount_keys_spec names [] pg (constructed names p0) Hdom)
    as Hmount.
  unfold componentWillMount. cbn [fst snd constructed controllerPropNames].
  destruct (mount_keys names [] _) as [outs [pg1 t1]].
  cbn [fst snd constructed controllerPropNames this_props unsubscribers]
    in Hmount.
  destruct Hmount as (Hd1 & Hn1 & Hp1 & Hu1).
  rewrite (right_id_L ∅ (∪)) in Hu1. by cbn [fst snd called canUseDOM].
Qed.

Lemma componentWillReceiveProps_spec nextProps pg t :
  canUseDOM pg = true →
  unsubscribers t = declared (controllerPropNames t) (this_props t) →
  canUseDOM (componentWillReceiveProps nextProps (pg, t)).1 = true ∧
  controllerPropNames (componentWillReceiveProps nextProps (pg, t)).2 =
    controllerPropNames t ∧
  this_props (componentWillReceiveProps nextProps (pg, t)).2 = nextProps ∧
  unsubscribers (componentWillReceiveProps nextProps (pg, t)).2 =
    declared (controllerPropNames t) nextProps.
Proof.
  intros Hdom Hu.
  pose proof (receive_keys_spec nextProps (controllerPropNames t) [] pg t
                Hdom) as Hspec.
  unfold componentWillReceiveProps. cbn [fst snd].
  destruct (foldl _ _ (controllerPropNames t)) as [outs [pg1 t1]].
  cbn [fst snd] in Hspec. cbn zeta in Hspec.
  destruct Hspec as (Hd1 & Hn1 & Hp1 & Hu1).
  cbn [fst snd with_props controllerPropNames this_props unsubscribers].
  split; [by destruct outs|]. split; [done|]. split; [done|].
  apply map_eq. intros k.
  rewrite declared_lookup. destruct (Hu1 k) as [Hout Hin].
  case_decide as Hk.
  - apply Hin; [done|]. left. by rewrite Hu, declared_lookup, decide_True.
  - rewrite Hout by done. by rewrite Hu, declared_lookup, decide_False.
Qed.

(** X7: in the browser, once mounted and after every
    [componentWillReceiveProps], the component holds an unsubscribe
    function for exactly the declared keys whose prop is a controller,
    and it is the one of that controller; after [componentWillUnmount] it
    holds none, and none of its controllers is left in
    [globalLinkedControllers]. *)
Theorem subscribed_to_the_controllers_in_the_props names p0 updates pg :
  canUseDOM pg = true →
  let st := mounted_through updates (pg, constructed names p0) in
  this_props st.2 = default p0 (last updates) ∧
  unsubscribers st.2 = declared names (this_props st.2) ∧
  unsubscribers (componentWillUnmount st).2 = ∅ ∧
  (∀ key c, key ∈ names → this_props st.2 !! key = Some c →
     linked (componentWillUnmount st).1 !! c = None).
Proof.
  intros Hdom. cbn zeta.
  assert (Hinv : ∀ updates p st,
    canUseDOM st.1 = true → controllerPropNames st.2 = names →
    this_props st.2 = p → unsubscribers st.2 = declared names p →
    canUseDOM (foldl (λ st nextProps, componentWillReceiveProps nextProps st)
                     st updates).1 = true ∧
    controllerPropNames
      (foldl (λ st nextProps, componentWillReceiveProps nextProps st)
             st updates).2 = names ∧
    this_props
      (foldl (λ st nextProps, componentWillReceiveProps nextProps st)
             st updates).2 = default p (last updates) ∧
    unsubscribers
      (foldl (λ st nextProps, componentWillReceiveProps nextProps st)
             st updates).2 =
      declared names (default p (last updates))).
  { clear. induction updates as [|nextProps updates IH];
      intros p [pg t] Hdom Hn Hp Hu; cbn [fst snd] in *.
    { by cbn [foldl last fst snd]. }
    cbn [foldl].
    destruct (componentWillReceiveProps_spec nextProps pg t Hdom)
      as (Hd1 & Hn1 & Hp1 & Hu1); [by rewrite Hn, Hp|].
    destruct (IH nextProps (componentWillReceiveProps nextProps (pg, t)))
      as (Hd' & Hn' & Hp' & Hu'); try done; try congruence.
    rewrite last_cons. by destruct (last updates). }
  unfold mounted_through.
  destruct (componentWillMount_spec names p0 pg Hdom) as (Hd1 & Hn1 & Hp1 & Hu1).
  destruct (Hinv updates p0 (componentWillMount (pg, constructed names p0)))
    as (Hd & Hn & Hp & Hu); try done.
  rewrite Hp. split; [done|]. split; [done|].
  unfold componentWillUnmount.
  destruct (foldl _ _ updates) as [pg2 t2]. cbn [fst snd] in *.
  destruct (unmount_keys_spec (controllerPropNames t2) pg2 t2)
    as (_ & _ & Hu' & Hl'). cbn zeta in *.
  split.
  - apply map_eq. intros k. rewrite lookup_empty.
    destruct (Hu' k) as [Hin Hnone].
    destruct (unsubscribers t2 !! k) as [c|] eqn:Hk; [|by apply Hnone].
    rewrite Hu, declared_lookup in Hk. case_decide; [|done].
    apply Hin; [by rewrite Hn | rewrite Hp; eauto].
  - intros key c Hkey Hc. apply Hl'. right. exists key.
    by rewrite Hn, Hp.
Qed.

End SubscriptionFacts.

End ControlledByPropsUseFacts.

Module InstantiateDefaultControllersSetupFacts.
Import Controllers.

Lemma check_classes_None m :
  check_classes m = None ↔
  Forall (λ kc, is_Controller_class kc.2 = true) m.
Proof.
  induction m as [|[key [|[] []]] m IH]; cbn [check_classes];
    rewrite ?Forall_cons; cbn [snd is_Controller_class].
  - split; [by constructor|done].
  - by split; [|intros [? _]].
  - rewrite IH. tauto.
  - rewrite IH. tauto.
  - by split; [|intros [? _]].
  - by split; [|intros [? _]].
Qed.

Lemma check_classes_Some m e :
  check_classes m = Some e ↔
  ∃ good key v rest,
    m = good ++ (key, v) :: rest ∧
    Forall (λ kc, is_Controller_class kc.2 = true) good ∧
    refusal key v = Some e.
Proof.
  induction m as [|[key v] m IH].
  { split; [done|]. intros (good & ? & ? & ? & Hm & _). by destruct good. }
  destruct (is_Controller_class v) eqn:Hv.
  - assert (check_classes ((key, v) :: m) = check_classes m) as ->
      by by destruct v as [|[] []].
    rewrite IH. split.
    + intros (good & key' & v' & rest & -> & Hgood & He).
      exists ((key, v) :: good), key', v', rest.
      split; [done|]. split; [by constructor|done].
    + intros ([|[k0 v0] good] & key' & v' & rest & Hm & Hgood & He).
      * injection Hm as -> -> ->. by destruct v' as [|[] []].
      * injection Hm as -> -> ->. apply Forall_cons_1 in Hgood as [_ Hgood].
        by exists good, key', v', rest.
  - assert (check_classes ((key, v) :: m) = refusal key v) as ->
      by by destruct v as [|[] []].
    split.
    + intros He. by exists [], key, v, m.
    + intros ([|[k0 v0] good] & key' & v' & rest & Hm & Hgood & He).
      * by injection Hm as -> -> ->.
      * injection Hm as -> -> ->. apply Forall_cons_1 in Hgood as [Hv0 _].
        cbn [snd] in Hv0. congruence.
Qed.

(** X14: [instantiateDefaultControllers] returns its decorator exactly
    when it is given a function or an object with at least one key, and
    every value given has a prototype that is an instance of [Controller];
    the decorator then has the keys given, or the one key ['controller']
    for a function, and nothing was printed. Otherwise it throws: on
    [Object.keys] when the argument is [undefined] or [null]; on
    [console.warning] when there is no key; and else for the first key, in
    the order of the keys, whose value is not such a class: a [TypeError]
    when that value is [undefined] or [null], whose [prototype] cannot be
    read, the error that names the key when the value can be printed, and
    a [TypeError] again when it cannot. *)
Theorem instantiateDefaultControllers_checks_every_class arg :
  match instantiateDefaultControllers arg with
  | inr d =>
      ∃ classes, wrapped arg = Some classes ∧ classes ≠ [] ∧
        Forall (λ kc, is_Controller_class kc.2 = true) classes ∧
        keys d = map fst classes ∧ controllerClasses d = classes ∧
        printed d = []
  | inl e =>
      (wrapped arg = None ∧ e = TypeError_cannot_convert "object") ∨
      (wrapped arg = Some [] ∧
       e = TypeError_not_a_function "console.warning") ∨
      (∃ good key v rest,
         wrapped arg = Some (good ++ (key, v) :: rest) ∧
         Forall (λ kc, is_Controller_class kc.2 = true) good ∧
         match v with
         | Nullish => e = TypeError_cannot_read "prototype"
         | AValue true _ => False
         | AValue false true => e = NotAControllerClass key
         | AValue false false => e = TypeError_cannot_convert "string"
         end)
  end.
Proof.
  unfold instantiateDefaultControllers.
  destruct (wrapped arg) as [classes|]; [|by left].
  destruct classes as [|kc classes'] eqn:Hclasses.
  { cbn. right. by left. }
  rewrite <- Hclasses. rewrite length_map.
  assert ((length classes =? 0)%nat = false) as -> by by rewrite Hclasses.
  destruct (check_classes classes) as [e|] eqn:Hcheck.
  - right. right.
    apply check_classes_Some in Hcheck
      as (good & key & v & rest & -> & Hgood & He).
    exists good, key, v, rest. split; [done|]. split; [done|].
    destruct v as [|[] []]; cbn in He; congruence.
  - exists classes. split; [done|]. split; [by rewrite Hclasses|].
    split; [by apply check_classes_None|done].
Qed.

End InstantiateDefaultControllersSetupFacts.

Module InstantiateDefaultControllersFacts.
Import InstantiateDefaultControllersUse.

Section LifecycleFacts.
Context {V : Type}.
Variable keys : list string.
Hypothesis keys_NoDup : NoDup keys.

Implicit Types (p : props V) (w : world V) (t : component V).

(** ** Objects *)

Lemma get_Some_elem key c (o : object) :
  get key o = Some c → (key, c) ∈ o.
Proof.
  induction o as [|[k c'] o IH]; cbn [get]; [done|].
  case_decide as Hk.
  - intros [= ->]. subst. left.
  - intros Hget. right. by apply IH.
Qed.

Lemma get_None key (o : object) :
  get key o = None ↔ key ∉ Object_keys o.
Proof.
  unfold Object_keys.
  induction o as [|[k c'] o IH]; cbn [get map fst].
  - split; [intros _; apply not_elem_of_nil|done].
  - rewrite not_elem_of_cons. case_decide as Hk.
    + split; [done|]. intros [Hne _]. by subst.
    + rewrite IH. split; [intros ?; split; [congruence|done]|by intros [_ ?]].
Qed.

Lemma get_is_Some key (o : object) :
  is_Some (get key o) ↔ key ∈ Object_keys o.
Proof.
  rewrite <- not_eq_None_Some, get_None.
  split; [apply dec_stable|]. intros Hin Hnot. by apply Hnot.
Qed.

Lemma get_app key (o1 o2 : object) :
  get key (o1 ++ o2) =
    match get key o1 with Some c => Some c | None => get key o2 end.
Proof.
  induction o1 as [|[k c] o1 IH]; cbn [get app]; [done|].
  by case_decide.
Qed.

Lemma get_remove key key' (o : object) :
  get key (remove key' o) =
    if decide (key = key') then None else get key o.
Proof.
  unfold remove, object.
  induction o as [|[k c] o IH]; cbn [get]; [by case_decide|].
  rewrite filter_cons. cbn [fst].
  destruct (decide (k ≠ key')) as [Hne|Heq]; cbn [get]; rewrite ?IH;
    repeat case_decide; simplify_eq; try done.

Qed.

Lemma put_fresh key c (o : object) :
  get key o = None → put key c o = o ++ [(key, c)].
Proof.
  induction o as [|[k c'] o IH]; cbn [get put app]; [done|].
  case_decide; [done|]. intros Hget. by rewrite IH.
Qed.

Lemma remove_keys_NoDup key (o : object) :
  NoDup (Object_keys o) → NoDup (Object_keys (remove key o)).
Proof.
  unfold Object_keys, remove, object.
  induction o as [|[k c] o IH]; cbn [map fst]; [done|].
  rewrite NoDup_cons. intros [Hk Ho]. rewrite filter_cons. cbn [fst].
  case_decide; [|by apply IH].
  cbn [map fst]. apply NoDup_cons. split; [|by apply IH].
  intros Hin. apply Hk.
  apply list_elem_of_fmap in Hin as ([k' c'] & -> & Hin).
  apply list_elem_of_filter in Hin as [_ Hin].
  apply list_elem_of_fmap. by exists (k', c').
Qed.

Lemma remove_values key c (o : object) :
  NoDup (Object_keys o) → get key o = Some c →
  map snd o ≡ₚ c :: map snd (remove key o).
Proof.
  unfold Object_keys, remove, object.
  induction o as [|[k c'] o IH]; cbn [map fst snd get]; [done|].
  rewrite NoDup_cons. intros [Hk Ho]. rewrite filter_cons. cbn [fst].
  case_decide as Hkey.
  - intros [= ->]. subst k.
    rewrite decide_False by (intros Hne; by apply Hne).
    assert (filter (λ kv : string * nat, kv.1 ≠ key) o = o) as ->; [|done].
    clear IH Ho. induction o as [|[k c'] o IH]; [done|].
    cbn [map fst] in Hk. apply not_elem_of_cons in Hk as [Hne Hk].
    rewrite filter_cons. cbn [fst]. rewrite decide_True by done.
    by rewrite IH.
  - intros Hget. rewrite decide_True by done. cbn [map snd].
    rewrite (IH Ho Hget). apply Permutation_swap.
Qed.

Lemma all_undefined (o : object) : (∀ key, get key o = None) → o = [].
Proof.
  destruct o as [|[k c] o]; [done|]. intros Hall.
  specialize (Hall k). cbn [get] in Hall. by rewrite decide_True in Hall.
Qed.

Lemma Object_assign_fresh (target source : object) :
  NoDup (Object_keys source) →
  (∀ key, key ∈ Object_keys source → get key target = None) →
  Object_assign target source = target ++ source.
Proof.
  unfold Object_assign, Object_keys.
  revert target. induction source as [|[k c] source IH]; intros target;
    cbn [map fst foldl snd].
  { intros _ _. by rewrite app_nil_r. }
  rewrite NoDup_cons. intros [Hk Hsource] Hfresh.
  rewrite put_fresh by (apply Hfresh; left).
  rewrite IH; [by rewrite <- app_assoc|done|].
  intros key Hkey. rewrite get_app, Hfresh by by right.
  cbn [get]. rewrite decide_False; [done|]. intros ->. by apply Hk.
Qed.

Lemma spread_lookup p (o : object) key :
  NoDup (Object_keys o) →
  spread p o !! key =
    match get key o with Some c => Some (inr c) | None => p !! key end.
Proof.
  unfold spread, Object_keys, props in *.
  revert p. induction o as [|[k c] o IH]; intros p; cbn [map fst foldl get];
    [done|].
  rewrite NoDup_cons. intros [Hk Ho]. rewrite IH by done. cbn [fst snd].
  case_decide as Hkey.
  - subst k. apply get_None in Hk. rewrite Hk. by rewrite lookup_insert_eq.
  - destruct (get key o); [done|]. by rewrite lookup_insert_ne.
Qed.

(** ** The two loops *)

Lemma createMissingControllers_from_spec ks p created w :
  NoDup ks →
  (∀ key, key ∈ ks → get key created = None) →
  createMissingControllers_from ks p created w =
    (created ++
       zip (missing p ks)
           (seq (instantiated w) (length (missing p ks))),
     {| instantiated := instantiated w + length (missing p ks);
        history :=
          history w ++
          zip_with (λ key c, Instantiated key p c) (missing p ks)
            (seq (instantiated w) (length (missing p ks))) |}).
Proof.
  unfold missing.
  revert created w. induction ks as [|key ks IH]; intros created w;
    cbn [createMissingControllers_from].
  { intros _ _. cbn. rewrite !app_nil_r, Nat.add_0_r. by destruct w. }
  rewrite NoDup_cons. intros [Hkey Hks] Hfresh. rewrite filter_cons.
  destruct (p !! key) as [v|] eqn:Hp.
  - rewrite decide_False by done. apply IH; [done|].
    intros k Hk. apply Hfresh. by right.
  - rewrite decide_True by done.
    unfold instantiateController. rewrite IH; [|done|].
    + cbn [instantiated history length seq zip zip_with].
      rewrite put_fresh by (apply Hfresh; left).
      rewrite <- !app_assoc. cbn [app]. f_equal. f_equal. lia.
    + intros k Hk. rewrite put_fresh by (apply Hfresh; left).
      rewrite get_app, Hfresh by by right. cbn [get].
      rewrite decide_False; [done|]. intros ->. done.
Qed.

Lemma made_app_instantiated p ks n evs :
  evs = zip_with (λ key c, Instantiated key p c) ks (seq n (length ks)) →
  omap (λ e : lifecycle_event V,
          match e with Instantiated _ _ c => Some c | _ => None end) evs =
    seq n (length ks) ∧
  omap (λ e : lifecycle_event V,
          match e with Destroyed c => Some c | _ => None end) evs = [].
Proof.
  intros ->. revert n. induction ks as [|k ks IH]; intros n; [done|].
  destruct (IH (S n)) as [IH1 IH2]. split; [exact (f_equal (cons n) IH1)|exact IH2].
Qed.

Lemma made_destroy c w : made (destroy c w) = made w.
Proof.
  unfold made, destroy. cbn [history]. rewrite omap_app. cbn.
  by rewrite app_nil_r.
Qed.

Lemma destroyed_destroy c w : destroyed (destroy c w) = destroyed w ++ [c].
Proof. unfold destroyed, destroy. cbn [history]. by rewrite omap_app. Qed.

Lemma createMissingControllers_spec p w :
  ∃ created w',
    createMissingControllers keys p w = (created, w') ∧
    Object_keys created = missing p keys ∧
    map snd created = seq (instantiated w) (length (missing p keys)) ∧
    instantiated w' = (instantiated w + length (missing p keys))%nat ∧
    made w' = made w ++ seq (instantiated w) (length (missing p keys)) ∧
    destroyed w' = destroyed w.
Proof.
  unfold createMissingControllers.
  rewrite createMissingControllers_from_spec by done.
  eexists _, _. split; [done|]. cbn [app instantiated history].
  unfold Object_keys, made, destroyed. cbn [history].
  rewrite !omap_app.
  destruct (made_app_instantiated p (missing p keys) (instantiated w)
              _ eq_refl) as [-> ->].
  rewrite app_nil_r.
  rewrite fst_zip, snd_zip by (rewrite length_seq; lia). done.
Qed.

Lemma destroy_defaults_spec test ks t :
  NoDup ks → NoDup (Object_keys t.1) →
  (∀ key, key ∈ ks → is_Some (get key t.1)) →
  ∃ t', destroy_defaults test ks t = Some t' ∧
    NoDup (Object_keys t'.1) ∧
    (∀ key, get key t'.1 =
       if decide (key ∈ ks ∧ test key = true) then None else get key t.1) ∧
    instantiated t'.2 = instantiated t.2 ∧
    made t'.2 = made t.2 ∧
    destroyed t'.2 ++ map snd t'.1 ≡ₚ destroyed t.2 ++ map snd t.1 ∧
    (∀ key c, key ∈ ks → test key = true → get key t.1 = Some c →
       c ∈ destroyed t'.2) ∧
    (∀ c, c ∈ destroyed t.2 → c ∈ destroyed t'.2).
Proof.
  revert t. induction ks as [|key ks IH]; intros [d w];
    cbn [fst snd destroy_defaults].
  { intros _ Hd _. exists (d, w). cbn [fst snd].
    repeat split; try done.
    intros key c Hin. by apply elem_of_nil in Hin. }
  rewrite NoDup_cons. intros [Hkey Hks] Hd Hall.
  destruct (test key) eqn:Htest.
  - destruct (Hall key) as [c Hc]; [left|]. rewrite Hc.
    destruct (IH (remove key d, destroy c w))
      as (t' & -> & Hd' & Hget & Hn & Hmade & Hperm & Hgone & Hmono);
      cbn [fst snd] in *.
    { done. }
    { by apply remove_keys_NoDup. }
    { intros k Hk. rewrite get_remove, decide_False; [apply Hall; by right|].
      intros ->. done. }
    exists t'. split; [done|]. split; [done|].
    rewrite made_destroy in Hmade. rewrite destroyed_destroy in Hperm.
    split; [|split; [done|split; [done|split; [|split]]]].
    + intros k. rewrite Hget, get_remove.
      repeat case_decide; simplify_eq; try done; exfalso; set_solver.
    + rewrite Hperm, <- app_assoc. cbn [app].
      by rewrite <- (remove_values key c d).
    + intros k c' Hin Ht Hk.
      apply elem_of_cons in Hin as [->|Hin].
      * apply Hmono. rewrite destroyed_destroy. rewrite Hc in Hk.
        injection Hk as ->. apply elem_of_app. right. left.
      * apply (Hgone k); [done|done|].
        rewrite get_remove, decide_False; [done|]. intros ->. done.
    + intros c' Hc'. apply Hmono. rewrite destroyed_destroy.
      apply elem_of_app. by left.
  - destruct (IH (d, w))
      as (t' & -> & Hd' & Hget & Hn & Hmade & Hperm & Hgone & Hmono);
      cbn [fst snd] in *.
    { done. }
    { done. }
    { intros k Hk. apply Hall. by right. }
    exists t'. split; [done|]. split; [done|].
    split; [|split; [done|split; [done|split; [done|split; [|done]]]]].
    + intros k. rewrite Hget.
      repeat case_decide; simplify_eq; try done; exfalso;
        set_solver by congruence.
    + intros k c' Hin Ht Hk.
      apply elem_of_cons in Hin as [->|Hin]; [congruence|].
      by apply (Hgone k).
Qed.

(** ** The invariant of a mounted component *)

Lemma missing_NoDup p : NoDup (missing p keys).
Proof. unfold missing. by apply NoDup_filter. Qed.

Lemma elem_of_missing p key :
  key ∈ missing p keys ↔ key ∈ keys ∧ p !! key = None.
Proof. unfold missing. rewrite list_elem_of_filter. tauto. Qed.

Lemma constructor_tidy p0 : tidy keys p0 (constructor keys p0).
Proof.
  unfold constructor.
  destruct (createMissingControllers_spec p0 nothing_yet)
    as (created & w' & -> & Hkeys & Hvals & Hn & Hmade & Hgone).
  cbn [instantiated nothing_yet] in *.
  split; cbn [fst snd].
  - rewrite Hkeys. apply missing_NoDup.
  - intros key. by rewrite get_is_Some, Hkeys, elem_of_missing.
  - rewrite Hmade, Hn. done.
  - rewrite Hgone, Hvals, Hn. done.
Qed.

Lemma receive_tidy p nextProps t :
  tidy keys p t →
  ∃ t', componentWillReceiveProps keys nextProps t = Some t' ∧
    tidy keys nextProps t' ∧
    (∀ key c, get key t.1 = Some c →
       match nextProps !! key with
       | None => get key t'.1 = Some c
       | Some _ => get key t'.1 = None ∧ c ∈ destroyed t'.2
       end).
Proof.
  intros [Hkeys Hdefaults Hmade Halive].
  unfold componentWillReceiveProps.
  destruct (destroy_defaults_spec
              (λ key, bool_decide (is_Some (nextProps !! key)))
              (Object_keys t.1) t)
    as ([d1 w1] & -> & Hd1 & Hget1 & Hn1 & Hmade1 & Hperm1 & Hgone1 & Hmono1);
    [done|done|by intros key; rewrite get_is_Some|].
  cbn [fst snd] in *.
  destruct (createMissingControllers_spec (spread nextProps d1) w1)
    as (created & w2 & -> & Hckeys & Hcvals & Hn2 & Hmade2 & Hgone2).
  assert (Hmerged : ∀ key,
    spread nextProps d1 !! key =
      match get key d1 with
      | Some c => Some (inr c)
      | None => nextProps !! key
      end) by (intros key; by apply spread_lookup).
  assert (Hfresh : ∀ key, key ∈ Object_keys created → get key d1 = None).
  { intros key. rewrite Hckeys, elem_of_missing, Hmerged.
    intros [_ Hnone]. by destruct (get key d1). }
  rewrite Object_assign_fresh
    by (first [by rewrite Hckeys; apply missing_NoDup | done]).
  assert (Hget1' : ∀ key,
    get key d1 =
      match nextProps !! key with Some _ => None | None => get key t.1 end).
  { intros key. rewrite Hget1.
    destruct (nextProps !! key) as [v|] eqn:Hnext.
    - destruct (get key t.1) as [c|] eqn:Hc.
      + rewrite decide_True; [done|]. split.
        * apply get_is_Some. by rewrite Hc.
        * by apply bool_decide_eq_true_2.
      + by case_decide.
    - rewrite decide_False; [done|]. intros [_ Hsome].
      apply bool_decide_eq_true_1 in Hsome. by destruct Hsome. }
  eexists. split; [done|]. split; [split; cbn [fst snd]|].
  - unfold Object_keys in *. rewrite map_app. apply NoDup_app.
    split; [done|]. split; [|rewrite Hckeys; apply missing_NoDup].
    intros key Hin1 Hin2. apply Hfresh in Hin2.
    apply get_None in Hin2. by apply Hin2.
  - intros key. rewrite get_app.
    destruct (get key d1) as [c|] eqn:Hd1key.
    + rewrite Hget1' in Hd1key.
      destruct (nextProps !! key) eqn:Hnext; [done|].
      split; [|by eauto]. intros _. split; [|done].
      apply Hdefaults. by rewrite Hd1key.
    + rewrite get_is_Some, Hckeys, elem_of_missing, Hmerged, Hd1key. done.
  - rewrite Hmade2, Hmade1, Hmade, Hn2, Hn1. by rewrite seq_app.
  - rewrite Hgone2, map_app, app_assoc, Hperm1, Halive, Hcvals, Hn2, Hn1.
    by rewrite seq_app.
  - intros key c Hc. cbn [fst snd]. rewrite get_app, Hget1'.
    destruct (nextProps !! key) as [v|] eqn:Hnext.
    + split.
      * apply get_None. rewrite Hckeys, elem_of_missing, Hmerged, Hget1', Hnext.
        intros [_ ?]. done.
      * rewrite Hgone2. apply (Hgone1 key); [|by apply bool_decide_eq_true_2|done].
        apply get_is_Some. by rewrite Hc.
    + by rewrite Hc.
Qed.

Lemma updated_from_tidy updates p t :
  tidy keys p t →
  ∃ t',
    foldl (λ ot nextProps, ot ≫= componentWillReceiveProps keys nextProps)
          (Some t) updates = Some t' ∧
    tidy keys (default p (last updates)) t'.
Proof.
  revert p t. induction updates as [|nextProps updates IH]; intros p t Ht.
  { exists t. by cbn. }
  cbn [foldl mbind option_bind].
  destruct (receive_tidy p nextProps t Ht) as (t1 & Hstep & Ht1 & _).
  cbn. rewrite Hstep.
  destruct (IH nextProps t1 Ht1) as (t' & -> & Ht').
  exists t'. split; [done|]. rewrite last_cons.
  by destruct (last updates).
Qed.

Lemma updated_tidy p0 updates :
  ∃ t, updated keys p0 updates = Some t ∧
       tidy keys (default p0 (last updates)) t.
Proof. apply updated_from_tidy, constructor_tidy. Qed.

Lemma unmount_tidy p t :
  tidy keys p t →
  ∃ t', componentWillUnmount t = Some t' ∧ t'.1 = [] ∧
        instantiated t'.2 = instantiated t.2 ∧
        made t'.2 = seq 0 (instantiated t'.2) ∧
        destroyed t'.2 ≡ₚ made t'.2.
Proof.
  intros [Hkeys Hdefaults Hmade Halive].
  unfold componentWillUnmount.
  destruct (destroy_defaults_spec (λ _, true) (Object_keys t.1) t)
    as (t' & -> & Hd1 & Hget1 & Hn1 & Hmade1 & Hperm1 & _);
    [done|done|by intros key; rewrite get_is_Some|].
  exists t'. split; [done|].
  assert (t'.1 = []) as Hnil.
  { apply all_undefined. intros key. rewrite Hget1.
    destruct (decide _) as [|Hcase]; [done|].
    apply get_None. intros Hin. by apply Hcase. }
  split; [done|]. split; [done|].
  rewrite Hmade1, Hn1. split; [done|].
  rewrite Hnil in Hperm1. cbn [map] in Hperm1. rewrite app_nil_r in Hperm1.
  by rewrite Hperm1, Hmade.
Qed.

(** ** What the wrapped component and the controllers see *)

(** X8: after its construction and any series of new props, the component
    holds a default controller for exactly the declared keys that the
    current props leave undefined; [render] passes every prop of the
    parent unchanged and adds these controllers, so that every declared
    key is defined for the wrapped component. No step throws. *)
Theorem every_declared_key_is_supplied p0 updates :
  ∃ t, updated keys p0 updates = Some t ∧
    let p := default p0 (last updates) in
    (∀ key, is_Some (get key t.1) ↔ key ∈ keys ∧ p !! key = None) ∧
    (∀ key, render p t !! key =
       match p !! key with
       | Some v => Some v
       | None => option_map inr (get key t.1)
       end) ∧
    (∀ key, key ∈ keys → is_Some (render p t !! key)).
Proof.
  destruct (updated_tidy p0 updates) as (t & Ht & [Hkeys Hdefaults _ _]).
  exists t. split; [done|]. cbn zeta. split; [done|].
  assert (Hrender : ∀ key,
    render (default p0 (last updates)) t !! key =
      match default p0 (last updates) !! key with
      | Some v => Some v
      | None => option_map inr (get key t.1)
      end).
  { intros key. unfold render. rewrite spread_lookup by done.
    destruct (default p0 (last updates) !! key) as [v|] eqn:Hp.
    - destruct (get key t.1) as [c|] eqn:Hc; [|done].
      destruct (proj1 (Hdefaults key)) as [_ Hnone]; [by rewrite Hc|].
      congruence.
    - by destruct (get key t.1). }
  split; [done|]. intros key Hkey. rewrite Hrender.
  destruct (default p0 (last updates) !! key) as [v|] eqn:Hp; [by eauto|].
  destruct (proj2 (Hdefaults key)) as [c ->]; [done|]. by eexists.
Qed.

(** X9: a controller made by the component is destroyed exactly once, and
    not while the component still holds it: at any time the controllers
    destroyed and the controllers held are, together, the controllers made,
    each once; after [componentWillUnmount] none is held, and the
    controllers destroyed are the controllers made. *)
Theorem every_controller_made_is_destroyed_once p0 updates :
  ∃ t t', updated keys p0 updates = Some t ∧
    componentWillUnmount t = Some t' ∧
    NoDup (made t.2) ∧
    destroyed t.2 ++ map snd t.1 ≡ₚ made t.2 ∧
    t'.1 = [] ∧ made t'.2 = made t.2 ∧
    destroyed t'.2 ≡ₚ made t'.2.
Proof.
  destruct (updated_tidy p0 updates) as (t & Ht & Htidy).
  destruct (unmount_tidy _ t Htidy) as (t' & Ht' & Hnil & Hn & Hmade & Hperm).
  destruct Htidy as [_ _ Hmade0 Halive].
  exists t, t'. split; [done|]. split; [done|].
  split; [rewrite Hmade0; apply NoDup_seq|].
  split; [by rewrite Hmade0|]. split; [done|].
  split; [by rewrite Hmade, Hmade0, Hn|done].
Qed.

(** X10: when new props arrive, a default controller whose prop is still
    undefined is kept, the same one, and is not destroyed; one whose prop
    is now defined is destroyed and no longer held. *)
Theorem a_default_lives_while_its_prop_is_undefined p0 updates nextProps :
  ∃ t t', updated keys p0 updates = Some t ∧
    componentWillReceiveProps keys nextProps t = Some t' ∧
    ∀ key c, get key t.1 = Some c →
      match nextProps !! key with
      | None => get key t'.1 = Some c ∧ c ∉ destroyed t'.2
      | Some _ => get key t'.1 = None ∧ c ∈ destroyed t'.2
      end.
Proof.
  destruct (updated_tidy p0 updates) as (t & Ht & Htidy).
  destruct (receive_tidy _ nextProps t Htidy) as (t' & Ht' & Htidy' & Hkept).
  exists t, t'. split; [done|]. split; [done|]. intros key c Hc.
  specialize (Hkept key c Hc).
  destruct (nextProps !! key) as [v|]; [done|]. split; [done|].
  destruct Htidy' as [_ _ _ Halive].
  assert (Hnodup : NoDup (destroyed t'.2 ++ map snd t'.1))
    by (rewrite Halive; apply NoDup_seq).
  apply NoDup_app in Hnodup as (_ & Hdisjoint & _).
  intros Hin. apply (Hdisjoint c Hin).
  apply get_Some_elem in Hkept.
  apply list_elem_of_fmap. by exists (key, c).
Qed.

End LifecycleFacts.
End InstantiateDefaultControllersFacts.

Module ResponsiveDualModeControllerUseFacts.
Import ResponsiveDualModeController ResponsiveDualModeControllerUse.
Import ResponsiveDualModeControllerFacts.

(** ** Joining and sorting keys *)

Lemma append_nil_l r : "" +:+ r = r.
Proof. done. Qed.

Lemma append_cons a s r : String a s +:+ r = String a (s +:+ r).
Proof. done. Qed.

Lemma has_comma_app a b : has_comma (a +:+ b) = has_comma a || has_comma b.
Proof.
  induction a as [|c a IH]; [done|].
  rewrite append_cons. cbn [has_comma]. by rewrite IH, orb_assoc.
Qed.

Lemma append_comma_inj x y r r' :
  has_comma x = false → has_comma y = false →
  x +:+ "," +:+ r = y +:+ "," +:+ r' → x = y ∧ r = r'.
Proof.
  revert y. induction x as [|a x IH]; intros [|b y];
    rewrite ?append_nil_l, ?append_cons, ?append_nil_l; cbn [has_comma];
    intros Hx Hy Heq.
  - by injection Heq as ->.
  - injection Heq as <- _. by rewrite bool_decide_eq_true_2 in Hy.
  - injection Heq as -> _. by rewrite bool_decide_eq_true_2 in Hx.
  - injection Heq as -> Heq.
    apply orb_false_iff in Hx as [_ Hx]. apply orb_false_iff in Hy as [_ Hy].
    by destruct (IH y Hx Hy Heq) as [-> ->].
Qed.

Lemma join_cons sep x y l :
  join sep (x :: y :: l) = x +:+ sep +:+ join sep (y :: l).
Proof. done. Qed.

Lemma join_comma_inj_nonempty l1 l2 :
  Forall (λ k, has_comma k = false) l1 →
  Forall (λ k, has_comma k = false) l2 →
  l1 ≠ [] → l2 ≠ [] →
  join "," l1 = join "," l2 → l1 = l2.
Proof.
  revert l2. induction l1 as [|x [|x' l1] IH]; intros [|y [|y' l2]];
    try done; rewrite ?join_cons; intros H1 H2 _ _ Heq.
  - cbn in Heq. by subst.
  - apply Forall_cons_1 in H1 as [Hx _]. cbn [join] in Heq. subst x.
    rewrite has_comma_app in Hx. cbn in Hx.
    by rewrite orb_true_r in Hx.
  - apply Forall_cons_1 in H2 as [Hy _]. cbn [join] in Heq. subst y.
    rewrite has_comma_app in Hy. cbn in Hy.
    by rewrite orb_true_r in Hy.
  - apply Forall_cons_1 in H1 as [Hx H1].
    apply Forall_cons_1 in H2 as [Hy H2].
    apply append_comma_inj in Heq as [-> Heq]; [|done|done].
    f_equal. by apply IH.
Qed.

Lemma join_comma_inj l1 l2 :
  Forall (λ k, has_comma k = false) l1 →
  Forall (λ k, has_comma k = false) l2 →
  join "," l1 = join "," l2 →
  l1 = l2 ∨ (l1 = [] ∧ l2 = [""]) ∨ (l1 = [""] ∧ l2 = []).
Proof.
  intros H1 H2 Heq.
  destruct l1 as [|x l1], l2 as [|y l2].
  - by left.
  - right. left. split; [done|].
    destruct l2 as [|y' l2]; [cbn in Heq; by subst|].
    rewrite join_cons in Heq. by destruct y.
  - right. right. split; [|done].
    destruct l1 as [|x' l1]; [cbn in Heq; by subst|].
    rewrite join_cons in Heq. by destruct x.
  - left. by apply join_comma_inj_nonempty.
Qed.

Lemma sorted_keys_Permutation (o : gset string) : sorted_keys o ≡ₚ elements o.
Proof. apply merge_sort_Permutation. Qed.

Lemma elem_of_sorted_keys (o : gset string) k : k ∈ sorted_keys o ↔ k ∈ o.
Proof. by rewrite sorted_keys_Permutation, elem_of_elements. Qed.

Lemma sorted_keys_inj (a b : gset string) :
  sorted_keys a = sorted_keys b → a = b.
Proof.
  intros Heq. apply set_eq. intros k.
  by rewrite <- !elem_of_sorted_keys, Heq.
Qed.

Lemma sorted_keys_empty : sorted_keys ∅ = [].
Proof. unfold sorted_keys. by rewrite elements_empty. Qed.

Lemma sorted_keys_singleton k : sorted_keys {[k]} = [k].
Proof. unfold sorted_keys. by rewrite elements_singleton. Qed.

Lemma sorted_keys_nil (a : gset string) : sorted_keys a = [] → a = ∅.
Proof. rewrite <- sorted_keys_empty. apply sorted_keys_inj. Qed.

Lemma sorted_keys_one (a : gset string) k : sorted_keys a = [k] → a = {[k]}.
Proof. rewrite <- (sorted_keys_singleton k). apply sorted_keys_inj. Qed.

(** X11: [modesAreEqual] compares the sets of keys, as long as no key
    contains a comma: it returns [true] exactly when the two objects have
    the same keys, or when one has no key and the other has the empty
    string as its only key. *)
Theorem modesAreEqual_compares_the_keys (a b : gset string) :
  (∀ k, k ∈ a ∪ b → has_comma k = false) →
  modesAreEqual a b = true ↔
    a = b ∨ (a = ∅ ∧ b = {[""]}) ∨ (a = {[""]} ∧ b = ∅).
Proof.
  intros Hkeys. unfold modesAreEqual. rewrite bool_decide_eq_true. split.
  - intros Heq. apply join_comma_inj in Heq as [Heq|[[Ha Hb]|[Ha Hb]]].
    + left. by apply sorted_keys_inj.
    + right. left. split; [by apply sorted_keys_nil|by apply sorted_keys_one].
    + right. right.
      split; [by apply sorted_keys_one|by apply sorted_keys_nil].
    + apply Forall_forall. intros k Hk. apply Hkeys.
      apply elem_of_sorted_keys in Hk. set_solver.
    + apply Forall_forall. intros k Hk. apply Hkeys.
      apply elem_of_sorted_keys in Hk. set_solver.
  - intros [->|[[-> ->]|[-> ->]]]; [done| |];
      by rewrite sorted_keys_empty, sorted_keys_singleton.
Qed.

(** ** The methods that call [_recalc] *)

Lemma _recalc_undefined this :
  modes this = None →
  _recalc this = (this, [], Some TypeError_keys_of_undefined).
Proof. intros Hmodes. unfold _recalc. by rewrite Hmodes. Qed.

Lemma invoke_undefined m this :
  modes this = None →
  ∃ this', invoke m this =
             (this', [],
              if skips_recalc m then None
              else Some TypeError_keys_of_undefined) ∧
    modes this' = None ∧ listeners this' = listeners this.
Proof.
  intros Hmodes.
  destruct m as [newMode|w|newEnv_max env_max];
    cbn [invoke skips_recalc]; unfold setMode, setDimensions, envWillUpdate.
  - rewrite _recalc_undefined by done. by eexists.
  - rewrite _recalc_undefined by done. by eexists.
  - destruct (decide (newEnv_max = env_max)) as [Heq|Hne].
    + rewrite bool_decide_eq_false_2 by (by intros Hne; apply Hne).
      rewrite bool_decide_eq_true_2 by done. by eexists.
    + rewrite bool_decide_eq_true_2, (bool_decide_eq_false_2 _ Hne) by done.
      rewrite _recalc_undefined by done. by eexists.
Qed.

(** X12: as long as [this.modes] is [undefined], which is how the
    constructor leaves it, every [setMode] and [setDimensions], and every
    [envWillUpdate] with a new [maxSinglePaneWidth], throws a [TypeError]
    in [_recalc] before a listener is called and before [this.modes] is
    assigned; so [this.modes] stays [undefined], whatever is called, and
    no listener is ever called. *)
Theorem methods_throw_while_modes_are_undefined ms this :
  modes this = None →
  ∃ this', invoke_all ms this =
             (this', [],
              if forallb skips_recalc ms then None
              else Some TypeError_keys_of_undefined) ∧
    modes this' = None ∧ listeners this' = listeners this.
Proof.
  revert this. induction ms as [|m ms IH]; intros this Hmodes.
  { by exists this. }
  cbn [invoke_all forallb].
  destruct (invoke_undefined m this Hmodes) as (this1 & -> & Hmodes1 & Hls1).
  destruct (skips_recalc m); cbn [andb]; [|by exists this1].
  destruct (IH this1 Hmodes1) as (this' & -> & Hmodes' & Hls').
  exists this'. split; [done|]. split; [done|]. congruence.
Qed.

End ResponsiveDualModeControllerUseFacts.

(** * The theorems at concrete instances *)

Module Instances.
Import SimpleController SimpleControllerFacts Examples.

Lemma idle_fresh : idle fresh.
Proof. by split. Qed.

Lemma headroom_fresh : (headroom fresh < 4)%nat.
Proof. vm_compute. lia. Qed.

Lemma three_setStates_one_onChange_witness :
  (∃ c', doAction shadowed 1 true tt fresh = Some c' ∧
     c' = console_error (ActionAlreadyRunning true) fresh ∧
     state c' = state fresh ∧ notified c' = notified fresh) ∧
  (∃ c', doAction differs 1 true tt fresh = Some c' ∧
     state c' = 3%nat ∧
     notified c' =
       [TransactionStart 7%nat; Change 7%nat (0%nat, 3%nat);
        TransactionEnd 7%nat]).
Proof.
  split.
  - apply (three_setStates_one_onChange shadowed 0 true tt 3%nat fresh
             idle_fresh).
    repeat constructor.
  - apply (three_setStates_one_onChange differs 0 true tt 3%nat fresh
             idle_fresh).
    repeat constructor.
Defined.

Lemma transaction_bracket_once_witness :
  ∃ c' mid, perform differs 4 (ToAction true tt) fresh = Some c' ∧
    transactionLevel c' = 0 ∧ Forall is_change mid ∧
    notified c' = [TransactionStart 7%nat] ++ mid ++ [TransactionEnd 7%nat].
Proof.
  apply (transaction_bracket_once differs 4 (ToAction true tt) fresh
           headroom_fresh).
  vm_compute. discriminate.
Defined.

Lemma running_action_is_rejected_witness :
  doAction differs 0 true tt busy =
    Some (console_error (ActionAlreadyRunning true) busy) ∧
  state (console_error (ActionAlreadyRunning true) busy) = state busy ∧
  env (console_error (ActionAlreadyRunning true) busy) = env busy.
Proof.
  destruct (running_action_is_rejected differs 0 true tt busy)
    as [(d & Hcall & -> & Hstate & Henv & _) _].
  - apply elem_of_singleton. reflexivity.
  - exact (conj Hcall (conj Hstate Henv)).
Defined.

Lemma set_replaces_env_when_it_differs_witness :
  ∃ c', public_set differs 4 5%nat fresh = Some c' ∧
    env c' = 5%nat ∧ public_get differs c' = (5%nat, state c').
Proof.
  apply (set_replaces_env_when_it_differs differs 4 5%nat fresh eq_refl
           headroom_fresh).
Defined.

(** C5, as stated, fails: with an [doesEnvDiffer] that reports no
    difference, [set(5)] on a live instance whose env is [0] leaves the env
    at [0], and [get()] still shows [0]. *)
Lemma set_keeps_env_when_hook_sees_no_difference :
  isDestroyed fresh = false ∧
  ∃ c', public_set same 4 5%nat fresh = Some c' ∧
    env c' = 0%nat ∧ env c' ≠ 5%nat ∧
    public_get same c' = (0%nat, 0%nat).
Proof.
  split; [reflexivity|]. eexists. split; [reflexivity|].
  repeat split. discriminate.
Qed.

Lemma notifications_per_call_witness :
  (∃ c', public_set differs 4 9%nat fresh = Some c' ∧
     notified c' =
       notified fresh ++
       bracket (one_change (public_get differs c') fresh) fresh) ∧
  (∃ c', doAction same 4 true tt fresh = Some c' ∧
     notified c' = notified fresh ++ bracket [] fresh).
Proof.
  split.
  - destruct (notifications_per_call differs 4 fresh idle_fresh
                headroom_fresh) as [Hdiffer _].
    destruct (Hdiffer (λ _ _ _, eq_refl) (λ _ _ _, eq_refl)) as [Hset _].
    apply Hset.
  - destruct (notifications_per_call same 4 fresh idle_fresh
                headroom_fresh) as [_ Hsame].
    destruct (Hsame (λ _ _ _, eq_refl) (λ _ _ _, eq_refl)) as [_ Hact].
    apply Hact. reflexivity.
Defined.

(** C6, as stated, fails: with hooks that always report a difference, the
    action [false], whose body never calls [setState], delivers the
    start/end pair and no [onChange]. *)
Lemma action_without_setState_delivers_no_onChange :
  (∀ e s e', doesEnvDiffer differs e s e' = true) ∧
  (∀ e s s', doesStateDiffer differs e s s' = true) ∧
  ∃ c', doAction differs 4 false tt fresh = Some c' ∧
    notified c' = [TransactionStart 7%nat; TransactionEnd 7%nat].
Proof.
  split; [done|]. split; [done|]. eexists. split; reflexivity.
Qed.

(** C7, as stated, fails: on a destroyed instance [subscribe] logs
    nothing and is not a no-op, since the listener is added. *)
Lemma subscribe_after_destroy_adds_the_listener :
  let d := public_destroy fresh in
  isDestroyed d = true ∧ listeners d = [] ∧
  console (public_subscribe 9%nat d) = console d ∧
  listeners (public_subscribe 9%nat d) = [9%nat] ∧
  public_subscribe 9%nat d ≠ d.
Proof.
  repeat split. intros Heq.
  apply (f_equal listeners) in Heq. discriminate Heq.
Qed.

End Instances.

Module ControllersInstances.
Import Controllers ControllersFacts.

Lemma handleChange_throws_iff_witness :
  ∃ h', handleChange "modes" 1%nat (handleTransactionStart new) = inr h' ∧
    state h' !! "modes" = Some 1%nat ∧ changesExist h' = true.
Proof.
  destruct (handleChange_throws_iff "modes" 1%nat (handleTransactionStart new))
    as (_ & _ & _ & Hok).
  destruct Hok as (h' & Hh' & Hstate & _ & Hchanges & _).
  - discriminate.
  - reflexivity.
  - exact (ex_intro _ h' (conj Hh' (conj Hstate Hchanges))).
Defined.

Lemma overlapping_transactions_flush_once_witness :
  ∃ h1 h3 : host nat,
    deliver_all [OnTransactionStart; OnChange "a" 1%nat; OnTransactionStart;
                 OnChange "b" 2%nat; OnTransactionEnd (JFunction 10)]
      new = inr h1 ∧
    flushes h1 = 0%nat ∧
    flushes (handleTransactionEnd (JFunction 11) h1) = 1%nat ∧
    flushed (handleTransactionEnd (JFunction 11) h1) = (h3, None) ∧
    unlocked h3 = [10%nat; 11%nat] ∧ unlockQueue h3 = [].
Proof.
  destruct (overlapping_transactions_flush_once "a" "b" 1%nat 2%nat
              10%nat 11%nat [] new
              [OnTransactionStart; OnChange "a" 1%nat; OnTransactionStart;
               OnChange "b" 2%nat; OnTransactionEnd (JFunction 10)])
    as [(h1 & h3 & H1 & H2 & _ & H3 & _ & _ & H4 & H5 & H6 & _) _].
  - reflexivity.
  - reflexivity.
  - reflexivity.
  - constructor.
  - exact (ex_intro _ h1 (ex_intro _ h3
      (conj H1 (conj H2 (conj H3 (conj H4 (conj H5 H6))))))).
Defined.

End ControllersInstances.

Module ResponsiveDualModeControllerInstances.
Import ResponsiveDualModeController ResponsiveDualModeControllerFacts.


End ResponsiveDualModeControllerInstances.

Module SimpleControllerUseInstances.
Import SimpleController SimpleControllerFacts SimpleControllerUse Examples.

Lemma one_onChange_per_call_witness :
  ∃ c' (changed : bool),
    perform differs 4 (ToAction true tt) fresh = Some c' ∧ idle c' ∧
    notified c' =
      notified fresh ++
      (if opens_transaction differs (ToAction true tt) fresh
       then bracket (if changed
                     then one_change (public_get differs c') fresh
                     else []) fresh
       else []).
Proof.
  apply (one_onChange_per_call differs 4 (ToAction true tt) fresh).
  - by split.
  - vm_compute. lia.
Defined.

Lemma unsubscribe_removes_that_listener_witness :
  listeners (unsubscribe 7%nat fresh) =
    filter (λ x, x ≠ 7%nat) (listeners fresh) ∧
  (7%nat ∉ listeners (unsubscribe 7%nat fresh)) ∧
  unsubscribe 7%nat (unsubscribe 7%nat fresh) = unsubscribe 7%nat fresh ∧
  (7%nat ∉ listeners fresh →
     unsubscribe 7%nat fresh = fresh ∧
     unsubscribe 7%nat (public_subscribe 7%nat fresh) = fresh).
Proof.
  apply (unsubscribe_removes_that_listener 7%nat fresh).
  apply NoDup_singleton.
Defined.

Lemma unsubscribed_listener_hears_nothing_witness :
  is_Some (perform differs 4 (ToSet 5%nat) (unsubscribe 7%nat fresh)) ∧
  ∀ c', perform differs 4 (ToSet 5%nat) (unsubscribe 7%nat fresh) = Some c' →
    listeners c' = filter (λ x, x ≠ 7%nat) (listeners fresh) ∧
    ∃ ns, notified c' = notified fresh ++ ns ∧
      Forall (λ n, recipient n ∈ listeners fresh ∧ recipient n ≠ 7%nat) ns.
Proof.
  destruct (unsubscribed_listener_hears_nothing differs 4 (ToSet 5%nat)
              7%nat fresh) as [Hreturns Hquiet].
  - apply NoDup_singleton.
  - split; [|exact Hquiet]. apply Hreturns.
    + by split.
    + vm_compute. lia.
Defined.

Lemma every_use_returns_settled_witness :
  ∃ c',
    apply_uses differs 4
      [Call (ToAction true tt); Subscribe 8%nat; Call (ToSet 5%nat);
       Unsubscribe 7%nat; Destroy; Call (ToSetState 9%nat)]
      fresh = Some c' ∧
    settled c'.
Proof.
  apply (every_use_returns_settled differs 4).
  - by split.
  - vm_compute. lia.
Defined.

End SimpleControllerUseInstances.

Module ControlledByPropsUseInstances.
Import Controllers ControlledByPropsUse ControlledByPropsUseFacts.

Lemma unlocks_in_order_of_transaction_end_witness :
  ∃ h' : host nat,
    occur_all
      [FromController OnTransactionStart;
       FromController OnTransactionStart;
       FromController (OnChange "modes" 1%nat);
       FromController (OnTransactionEnd (JFunction 10));
       FromController (OnTransactionEnd (JFunction 11));
       ReactCommits] new = inr h' ∧
    unlockQueue h' = [] ∧ unlocked h' = [10%nat; 11%nat].
Proof.
  eexists. split; [reflexivity|].
  exact (proj2 (unlocks_in_order_of_transaction_end
                  [FromController OnTransactionStart;
                   FromController OnTransactionStart;
                   FromController (OnChange "modes" 1%nat);
                   FromController (OnTransactionEnd (JFunction 10));
                   FromController (OnTransactionEnd (JFunction 11));
                   ReactCommits] new _ eq_refl)
           [FromController OnTransactionStart;
            FromController OnTransactionStart;
            FromController (OnChange "modes" 1%nat);
            FromController (OnTransactionEnd (JFunction 10));
            FromController (OnTransactionEnd (JFunction 11))] eq_refl).
Defined.

Lemma no_change_while_flushing_witness :
  ∃ h',
    deliver_all [OnTransactionStart; OnTransactionEnd (JFunction 11)]
      waiting = inr h' ∧
    state h' = state waiting ∧ effects h' = effects waiting ∧
    changesExist h' = false.
Proof.
  pose proof (no_change_while_flushing
                [OnTransactionStart; OnTransactionEnd (JFunction 11)]
                waiting) as Hflush.
  destruct (deliver_all _ waiting) as [e|h'] eqn:Hdeliver.
  { discriminate Hdeliver. }
  destruct Hflush as (_ & Hstate & Heffects & _ & Hchanges & _).
  - discriminate.
  - reflexivity.
  - reflexivity.
  - exists h'. by repeat split.
Defined.

Lemma subscribed_to_the_controllers_in_the_props_witness :
  let st :=
    mounted_through [{["controller" := 2%nat]}; ∅]
      (browser, constructed ["controller"] {["controller" := 1%nat]}) in
  this_props st.2 = ∅ ∧
  unsubscribers st.2 = declared ["controller"] (this_props st.2) ∧
  unsubscribers (componentWillUnmount st).2 = ∅ ∧
  (∀ key c, key ∈ ["controller"] → this_props st.2 !! key = Some c →
     linked (componentWillUnmount st).1 !! c = None).
Proof.
  apply (subscribed_to_the_controllers_in_the_props ["controller"]
           {["controller" := 1%nat]} [{["controller" := 2%nat]}; ∅] browser).
  reflexivity.
Defined.

End ControlledByPropsUseInstances.

Module InstantiateDefaultControllersInstances.
Import InstantiateDefaultControllersUse InstantiateDefaultControllersFacts.

Lemma two_keys : NoDup ["controller"; "router"].
Proof. apply NoDup_cons. split; [set_solver|apply NoDup_singleton]. Qed.

Lemma every_declared_key_is_supplied_witness :
  ∃ t : component unit,
    updated ["controller"; "router"] ∅ [{["router" := inl tt]}] = Some t ∧
    let p : props unit := {["router" := inl tt]} in
    (∀ key, is_Some (get key t.1) ↔
            key ∈ ["controller"; "router"] ∧ p !! key = None) ∧
    (∀ key, render p t !! key =
       match p !! key with
       | Some v => Some v
       | None => option_map inr (get key t.1)
       end) ∧
    (∀ key, key ∈ ["controller"; "router"] → is_Some (render p t !! key)).
Proof.
  exact (every_declared_key_is_supplied (V:=unit) ["controller"; "router"]
           two_keys ∅ [{["router" := inl tt]}]).
Defined.

Lemma every_controller_made_is_destroyed_once_witness :
  ∃ t t' : component unit,
    updated ["controller"; "router"] ∅ [{["router" := inl tt]}; ∅] =
      Some t ∧
    componentWillUnmount t = Some t' ∧
    NoDup (made t.2) ∧
    destroyed t.2 ++ map snd t.1 ≡ₚ made t.2 ∧
    t'.1 = [] ∧ made t'.2 = made t.2 ∧
    destroyed t'.2 ≡ₚ made t'.2.
Proof.
  exact (every_controller_made_is_destroyed_once (V:=unit)
           ["controller"; "router"] two_keys ∅ [{["router" := inl tt]}; ∅]).
Defined.

Lemma a_default_lives_while_its_prop_is_undefined_witness :
  ∃ t t' : component unit,
    updated ["controller"; "router"] ∅ [] = Some t ∧
    componentWillReceiveProps ["controller"; "router"]
      {["router" := inl tt]} t = Some t' ∧
    ∀ key c, get key t.1 = Some c →
      match ({["router" := inl tt]} : props unit) !! key with
      | None => get key t'.1 = Some c ∧ c ∉ destroyed t'.2
      | Some _ => get key t'.1 = None ∧ c ∈ destroyed t'.2
      end.
Proof.
  exact (a_default_lives_while_its_prop_is_undefined (V:=unit)
           ["controller"; "router"] two_keys ∅ [] {["router" := inl tt]}).
Defined.

End InstantiateDefaultControllersInstances.

Module ResponsiveDualModeControllerUseInstances.
Import ResponsiveDualModeController ResponsiveDualModeControllerUse.
Import ResponsiveDualModeControllerUseFacts.

Lemma modesAreEqual_compares_the_keys_witness :
  modesAreEqual {["source"; "view"]} {["view"]} = true ↔
    ({["source"; "view"]} : gset string) = {["view"]} ∨
    (({["source"; "view"]} : gset string) = ∅ ∧
     ({["view"]} : gset string) = {[""]}) ∨
    (({["source"; "view"]} : gset string) = {[""]} ∧
     ({["view"]} : gset string) = ∅).
Proof.
  apply (modesAreEqual_compares_the_keys {["source"; "view"]} {["view"]}).
  intros k Hk. set_unfold. by destruct Hk as [[-> | ->] | ->].
Defined.

Lemma methods_throw_while_modes_are_undefined_witness :
  ∃ this',
    invoke_all [EnvWillUpdate (Some 999) (Some 999); SetMode (Some "view");
                SetDimensions (Some 500)] constructed =
      (this', [], Some TypeError_keys_of_undefined) ∧
    modes this' = None ∧ listeners this' = None.
Proof.
  apply (methods_throw_while_modes_are_undefined
           [EnvWillUpdate (Some 999) (Some 999); SetMode (Some "view");
            SetDimensions (Some 500)] constructed).
  reflexivity.
Defined.

End ResponsiveDualModeControllerUseInstances.
